(** * Text Analyzer: tokenize, filter, count, rank, persist

    A shallow embedding of [src/text_analyzer.py] and the properties its
    specification states about it.

    Python values are modelled as follows.
    - [str] is a sequence of Unicode code points: [list N].
    - [int] is [Z]; [len] returns a non-negative [Z].
    - [list] is [list]; a [set] used only for membership tests is a list
      of its members in an arbitrary (hash table) order.
    - [collections.Counter] is an insertion-ordered dictionary: an
      association list with unique keys, new keys appended at the end.
    - A file written through [Path.open("w")] lives in a small file
      system threaded through a state-and-error monad. *)

From Stdlib Require Import String Ascii DecimalString DecimalZ.
From Stdlib Require Import List ZArith NArith Lia Bool Sorted Permutation.
Import ListNotations.

(** * The program and the library functions it calls *)

(** ** Strings as code point sequences *)

Module Str.

Definition char := N.
Definition str := list char.

Fixpoint eqb (s t : str) : bool :=
  match s, t with
  | [], [] => true
  | c :: s', d :: t' => N.eqb c d && eqb s' t'
  | _, _ => false
  end.

(** A literal of the source, written as a Rocq string of ASCII characters. *)
Definition of_string (s : string) : str :=
  map N_of_ascii (list_ascii_of_string s).

Definition TAB : char := 9%N.
Definition LF : char := 10%N.
Definition CR : char := 13%N.
Definition APOSTROPHE : char := 39%N.

Definition is_ascii (c : char) : bool := (c <? 128)%N.
Definition is_ascii_upper (c : char) : bool := ((65 <=? c) && (c <=? 90))%N.
Definition is_ascii_lower (c : char) : bool := ((97 <=? c) && (c <=? 122))%N.
Definition is_ascii_digit (c : char) : bool := ((48 <=? c) && (c <=? 57))%N.

Definition ascii_lower (c : char) : char :=
  if is_ascii_upper c then (c + 32)%N else c.

(** The surrogate code points U+D800 to U+DFFF: a [str] may hold them,
    UTF-8 cannot encode them. *)
Definition is_surrogate (c : char) : bool :=
  ((55296 <=? c) && (c <=? 57343))%N.

Definition utf8_encodable (s : str) : bool :=
  forallb (fun c => negb (is_surrogate c)) s.

(** [s.lower()].  An ASCII code point is mapped by the ASCII rule.  The
    lowercase expansion of any other code point comes from the Unicode
    character database, which is not part of the program: it is the
    parameter [lower_nonascii], given the whole string and the position of
    the code point (the expansion of capital sigma depends on its
    neighbours, and one code point may expand to several). *)
Fixpoint lower_from (lower_nonascii : str -> nat -> str)
    (text : str) (i : nat) (rest : str) : str :=
  match rest with
  | [] => []
  | c :: rest' =>
      (if is_ascii c then [ascii_lower c] else lower_nonascii text i)
        ++ lower_from lower_nonascii text (S i) rest'
  end.

Definition lower (lower_nonascii : str -> nat -> str) (text : str) : str :=
  lower_from lower_nonascii text 0 text.

(** [s.split(sep)] for a one-character separator: the fields between the
    separators, of which there is always at least one.  [cur] holds the
    field in progress, reversed. *)
Fixpoint split_on (sep : char) (cur : str) (s : str) : list str :=
  match s with
  | [] => [rev cur]
  | c :: s' =>
      if N.eqb c sep then rev cur :: split_on sep [] s'
      else split_on sep (c :: cur) s'
  end.

Definition split (sep : char) (s : str) : list str := split_on sep [] s.

End Str.

Import Str.

Definition py := Str.of_string.
Arguments py s%_string.

(** [len(x)] for a string or a list. *)
Definition len {A} (l : list A) : Z := Z.of_nat (length l).

(** ** The [re] module, as far as the program uses it *)

Module Re.

(** [re.findall] for a pattern of the shape [[class]+]: the matches are
    found left to right, each one greedy, the search resuming where the
    previous match ended.  [cur] holds the match in progress, reversed. *)
Definition flush (cur : str) : list str :=
  match cur with
  | [] => []
  | _ => [rev cur]
  end.

Fixpoint scan (cls : char -> bool) (cur : str) (s : str) : list str :=
  match s with
  | [] => flush cur
  | c :: s' =>
      if cls c then scan cls (c :: cur) s'
      else flush cur ++ scan cls [] s'
  end.

Definition findall_class_plus (cls : char -> bool) (s : str) : list str :=
  scan cls [] s.

End Re.

(** The character class [[a-zA-Z0-9']]. *)
Definition word_char (c : char) : bool :=
  is_ascii_lower c || is_ascii_upper c || is_ascii_digit c || N.eqb c APOSTROPHE.

(** ** Python sets, used for membership only *)

Module PySet.

(** The members of the set, in the order the hash table happens to hold
    them.  The program never iterates a set; it only asks [t in s]. *)
Definition t := list str.

Definition contains (s : t) (x : str) : bool := existsb (Str.eqb x) s.

End PySet.

(** ** [sorted], [max] and [heapq.nlargest] *)

Module Heapq.

Section Keyed.

Variable A : Type.
Variable key : A -> Z.

(** [sorted(iterable, key=key, reverse=True)].  Python's sort is stable,
    also under [reverse=True]: elements with equal keys keep the order
    they had.  [insert_desc x l] puts [x], which came before every element
    of [l], in front of the first element whose key is not larger. *)
Fixpoint insert_desc (x : A) (l : list A) : list A :=
  match l with
  | [] => [x]
  | y :: l' =>
      if (key x <? key y)%Z then y :: insert_desc x l' else x :: y :: l'
  end.

Fixpoint sorted_desc (l : list A) : list A :=
  match l with
  | [] => []
  | x :: l' => insert_desc x (sorted_desc l')
  end.

(** [max(iterable, key=key)] from its first element on: the best so far
    is replaced only by an element with a strictly larger key. *)
Definition max_first (x : A) (rest : list A) : A :=
  fold_left (fun best y => if (key best <? key y)%Z then y else best) rest x.

(** The entries [(k, order, elem)] the heap holds, compared as tuples.
    The orders are pairwise distinct, so the comparison never reaches the
    third component. *)
Definition entry : Type := Z * Z * A.

Definition entry_lt (e f : entry) : bool :=
  let '(k1, o1, _) := e in
  let '(k2, o2, _) := f in
  (k1 <? k2)%Z || ((k1 =? k2)%Z && (o1 <? o2)%Z).

(** A heap is read only at its root, the smallest entry.  It is kept here
    as the list of its entries in ascending order, the root first. *)
Fixpoint heap_insert (e : entry) (h : list entry) : list entry :=
  match h with
  | [] => [e]
  | f :: h' => if entry_lt e f then e :: f :: h' else f :: heap_insert e h'
  end.

Definition heapify (l : list entry) : list entry :=
  fold_left (fun h e => heap_insert e h) l [].

(** [heapreplace(h, e)]: the root goes, [e] comes in. *)
Definition heapreplace (h : list entry) (e : entry) : list entry :=
  heap_insert e (tl h).

(** The key of the root, [h[0][0]]. *)
Definition top (h : list entry) : Z :=
  match h with
  | (k, _, _) :: _ => k
  | [] => 0%Z
  end.

(** [[(key(elem), i, elem) for i, elem in zip(range(i, ..., -1), it)]] *)
Fixpoint decorate (i : Z) (l : list A) : list entry :=
  match l with
  | [] => []
  | x :: l' => (key x, i, x) :: decorate (i - 1) l'
  end.

(** One turn of the loop over the remaining elements. *)
Definition nlargest_step (st : list entry * Z) (elem : A) : list entry * Z :=
  let (h, order) := st in
  let k := key elem in
  if (top h <? k)%Z then (heapreplace h (k, order, elem), (order - 1)%Z)
  else (h, order).

(** [heapq.nlargest(n, iterable, key=key)], by the three cases of the
    library: [n == 1] takes the maximum; [n >= len(iterable)] sorts and
    slices; otherwise the first [n] elements fill a min-heap and every
    later element with a key above the root replaces the root, the heap
    being sorted in descending order at the end. *)
Definition nlargest (n : Z) (iterable : list A) : list A :=
  if (n =? 1)%Z then
    match iterable with
    | [] => []
    | x :: rest => [max_first x rest]
    end
  else if (n >=? len iterable)%Z then
    firstn (Z.to_nat n) (sorted_desc iterable)
  else
    let result := decorate 0 (firstn (Z.to_nat n) iterable) in
    match result with
    | [] => []
    | _ =>
        let st := fold_left nlargest_step (skipn (Z.to_nat n) iterable)
                    (heapify result, (- n)%Z) in
        map snd (rev (fst st))
    end.

End Keyed.

Arguments insert_desc {A} key x l.
Arguments sorted_desc {A} key l.
Arguments max_first {A} key x rest.
Arguments entry_lt {A} e f.
Arguments heap_insert {A} e h.
Arguments heapify {A} l.
Arguments heapreplace {A} h e.
Arguments top {A} h.
Arguments decorate {A} key i l.
Arguments nlargest_step {A} key st elem.
Arguments nlargest {A} key n iterable.

End Heapq.

(** ** [collections.Counter] *)

Module Counter.

(** Keys in insertion order, each with its count. *)
Definition t := list (str * Z).

(** [c.get(k, 0)], which is also [c[k]] for a Counter. *)
Fixpoint get (c : t) (k : str) : Z :=
  match c with
  | [] => 0%Z
  | (k', v) :: c' => if Str.eqb k' k then v else get c' k
  end.

(** [c[k] = v]: an existing key keeps its place, a new key goes last. *)
Fixpoint set_item (c : t) (k : str) (v : Z) : t :=
  match c with
  | [] => [(k, v)]
  | (k', v') :: c' =>
      if Str.eqb k' k then (k', v) :: c' else (k', v') :: set_item c' k v
  end.

(** [for elem in iterable: c[elem] = c.get(elem, 0) + 1] *)
Definition count_elements (c : t) (iterable : list str) : t :=
  fold_left (fun c elem => set_item c elem (get c elem + 1)%Z) iterable c.

(** [Counter(iterable)] *)
Definition of_iterable (iterable : list str) : t := count_elements [] iterable.

Definition items (c : t) : list (str * Z) := c.

Definition keys (c : t) : list str := map fst c.

Definition values (c : t) : list Z := map snd c.

(** [c.most_common(n)] is [heapq.nlargest(n, c.items(), key=itemgetter(1))]. *)
Definition most_common (c : t) (n : Z) : list (str * Z) :=
  Heapq.nlargest snd n (items c).

End Counter.

(** ** Decimal text of an [int] *)

(** The decimal digits of [z], with a leading minus sign for a negative
    number: the text that [str(z)] and an f-string field [{z}] give when
    they return. *)
Definition str_of_int (z : Z) : str :=
  Str.of_string (NilZero.string_of_int (Z.to_int z)).

(** They do not always return.  The interpreter converts an [int] to
    decimal text only up to [sys.get_int_max_str_digits()] digits, 4300
    as it starts; for an [int] of more digits, [str(z)] and the field
    [{z}] raise [ValueError]. *)
Definition int_max_str_digits : Z := 4300.

Definition int_str_allowed (z : Z) : bool :=
  (Z.abs z <? 10 ^ int_max_str_digits)%Z.

(** ** Files *)

Module Fs.

(** A path is the list of its components, the innermost first:
    [Path("outputs/top.txt")] is [["top.txt"; "outputs"]], its [parent]
    is [["outputs"]], and the empty list is the directory the path is
    relative to. *)
Definition path := list str.

Fixpoint path_eqb (p q : path) : bool :=
  match p, q with
  | [], [] => true
  | a :: p', b :: q' => Str.eqb a b && path_eqb p' q'
  | _, _ => false
  end.

Definition parent (p : path) : path := tl p.

(** The content of a file is held as code points, those UTF-8 decodes
    its bytes to.  Bytes that are not valid UTF-8 are held as surrogate
    code points, as the error handlers [surrogateescape] and
    [surrogatepass] of the codec would decode them: no valid UTF-8 text
    holds a surrogate, and writing never leaves one (see
    [PathOps.write]). *)
Inductive entry :=
| Dir
| File (content : str).

Definition fs := path -> option entry.

Definition lookup (s : fs) (p : path) : option entry :=
  match p with
  | [] => Some Dir
  | _ => s p
  end.

Definition update (s : fs) (p : path) (e : entry) : fs :=
  fun q => if path_eqb q p then Some e else s q.

(** A computation that reads and changes the file system and may raise
    an exception ([None]). *)
Definition IO (A : Type) := fs -> option (A * fs).

Definition ret {A} (a : A) : IO A := fun s => Some (a, s).

Definition bind {A B} (m : IO A) (k : A -> IO B) : IO B :=
  fun s =>
    match m s with
    | Some (a, s') => k a s'
    | None => None
    end.

Definition raise {A} : IO A := fun _ => None.

(** Go on when [b] holds, raise when it does not. *)
Definition ensure (b : bool) : IO unit := if b then ret tt else raise.

Definition get_entry (p : path) : IO (option entry) :=
  fun s => Some (lookup s p, s).

Definition put_entry (p : path) (e : entry) : IO unit :=
  fun s => Some (tt, update s p e).

End Fs.

Notation "x <- m ;; k" := (Fs.bind m (fun x => k))
  (at level 61, m at next level, right associativity).
Notation "m ;; k" := (Fs.bind m (fun _ => k))
  (at level 61, right associativity).

Module PathOps.

Import Fs.

(** [d.mkdir(parents=True, exist_ok=True)]: an existing directory is
    accepted, an existing file in the way raises, a missing parent is
    created first. *)
Fixpoint mkdir (d : path) : IO unit :=
  match d with
  | [] => ret tt
  | _ :: up =>
      e <- get_entry d ;;
      match e with
      | Some Dir => ret tt
      | Some (File _) => raise
      | None => mkdir up ;; put_entry d Dir
      end
  end.

(** [p.open("w")]: the file is created or truncated; the handle is the
    path itself.  Opening a directory, or a file whose parent is not a
    directory, raises. *)
Definition open_w (p : path) : IO path :=
  e <- get_entry p ;;
  match e with
  | Some Dir => raise
  | _ =>
      up <- get_entry (parent p) ;;
      match up with
      | Some Dir => put_entry p (File []) ;; ret p
      | _ => raise
      end
  end.

(** [f.write(data)] on a handle opened with [encoding="utf-8"], whose
    position is the end of the file.  Text that cannot be encoded raises
    ([UnicodeEncodeError]). *)
Definition write (f : path) (data : str) : IO unit :=
  if Str.utf8_encodable data then
    e <- get_entry f ;;
    match e with
    | Some (File content) => put_entry f (File (content ++ data))
    | _ => raise
    end
  else raise.

(** [for x in l: body(x)] *)
Fixpoint for_each {A} (l : list A) (body : A -> IO unit) : IO unit :=
  match l with
  | [] => ret tt
  | x :: l' => body x ;; for_each l' body
  end.

End PathOps.

(** ** The program *)

Definition DEFAULT_STOPWORDS : PySet.t :=
  map py
    [ (* Indonesian (basic) *)
      "dan"; "yang"; "di"; "ke"; "dari"; "untuk"; "pada"; "dengan"; "atau";
      "ini"; "itu"; "adalah";
      (* English (basic) *)
      "the"; "a"; "an"; "and"; "or"; "to"; "of"; "in"; "on"; "for"; "with";
      "is"; "are"; "was"; "were" ]%string.

Record AnalysisResult := {
  char_count : Z;
  word_count : Z;
  top_n : Z;
  most_common : list (str * Z);
  frequencies : Counter.t
}.

Section Analyzer.

(** The lowercase expansions of the non-ASCII code points, see [Str.lower]. *)
Variable lower_nonascii : str -> nat -> str.

(** [tokenize]: lowercase and extract alphanumeric tokens (plus
    apostrophes), the matches of [[a-zA-Z0-9']+]. *)
Definition tokenize (text : str) : list str :=
  Re.findall_class_plus word_char (Str.lower lower_nonascii text).

(** [remove_stopwords]: remove stopwords and very short tokens,
    [[t for t in tokens if t not in stopwords and len(t) >= min_len]].
    The defaults of the source are [DEFAULT_STOPWORDS] and [3]. *)
Definition remove_stopwords (tokens : list str) (stopwords : PySet.t)
    (min_len : Z) : list str :=
  filter (fun t => negb (PySet.contains stopwords t) && (len t >=? min_len)%Z)
    tokens.

Definition analyze_text (text : str) (top_n : Z) (stopwords : PySet.t)
    : AnalysisResult :=
  let char_count := len text in
  let tokens := tokenize text in
  let filtered := remove_stopwords tokens stopwords 3 in
  let word_count := len filtered in
  let freq_counter := Counter.of_iterable filtered in
  let most_common := Counter.most_common freq_counter top_n in
  {| char_count := char_count;
     word_count := word_count;
     top_n := top_n;
     most_common := most_common;
     frequencies := freq_counter |}.

End Analyzer.

Definition header_line : str := py "Top Word Frequencies".
Definition separator_line : str := py "====================".

(** One data row, without its line terminator: the text of
    [f"{word}\t{count}"]. *)
Definition format_row (row : str * Z) : str :=
  let (word, count) := row in word ++ [TAB] ++ str_of_int count.

(** [save_ranking].  In the loop, the f-string is evaluated before
    [f.write] is called: it raises when the count has more digits than
    the interpreter converts, and its text is written otherwise. *)
Definition save_ranking (most_common : list (str * Z)) (output_path : Fs.path)
    : Fs.IO unit :=
  PathOps.mkdir (Fs.parent output_path) ;;
  f <- PathOps.open_w output_path ;;
  PathOps.write f (header_line ++ [LF]) ;;
  PathOps.write f (separator_line ++ [LF]) ;;
  PathOps.for_each most_common
    (fun row =>
       Fs.ensure (int_str_allowed (snd row)) ;;
       PathOps.write f (format_row row ++ [LF])).

(** * Notions of the specification and of the proofs *)

Definition str_eq_dec (s t : str) : {s = t} + {s <> t} :=
  list_eq_dec N.eq_dec s t.

(** [xs.index(x)]: the position of the first occurrence, if there is one. *)
Fixpoint first_index (x : str) (xs : list str) : option nat :=
  match xs with
  | [] => None
  | y :: xs' =>
      if Str.eqb y x then Some O
      else option_map S (first_index x xs')
  end.

(** The maximal runs of characters of a class in a string, left to
    right: the string is a separator (no character of the class), then a
    run (non-empty, all of the class) that the rest of the string does not
    continue, then the runs of the rest. *)
Inductive maximal_runs (cls : char -> bool) : str -> list str -> Prop :=
| runs_none sep :
    Forall (fun c => cls c = false) sep ->
    maximal_runs cls sep []
| runs_cons sep run rest runs :
    Forall (fun c => cls c = false) sep ->
    run <> [] ->
    Forall (fun c => cls c = true) run ->
    hd_error rest = None \/ (exists c, hd_error rest = Some c /\ cls c = false) ->
    maximal_runs cls rest runs ->
    maximal_runs cls (sep ++ run ++ rest) (run :: runs).

(** A lowercase token character: [a-z], [0-9] or the apostrophe. *)
Definition token_char (c : char) : Prop :=
  (97 <= c <= 122)%N \/ (48 <= c <= 57)%N \/ c = APOSTROPHE.

(** ** Subsequences and positions *)

(** The specification's exclusion rule. *)
Definition excluded (stopwords : PySet.t) (min_len : Z) (t : str) : Prop :=
  In t stopwords \/ (len t < min_len)%Z.

(** [ys] is what is left of [xs] at the positions [idx], which increase
    strictly: nothing is reordered and no position is used twice. *)
Definition subsequence_at {A} (idx : list nat) (xs ys : list A) : Prop :=
  StronglySorted lt idx /\ map (nth_error xs) idx = map Some ys.

Inductive subseq {A} : list A -> list A -> Prop :=
| subseq_nil : subseq [] []
| subseq_skip x s l : subseq s l -> subseq s (x :: l)
| subseq_cons x s l : subseq s l -> subseq (x :: s) (x :: l).

#[local] Hint Constructors subseq : core.

(** ** Sorting, and the heap of [heapq.nlargest] *)

Section SortNotions.

Variable A : Type.
Variable key : A -> Z.

Definition key_ge (x y : A) : Prop := (key y <= key x)%Z.

(** [insert_last x l]: where [x] belongs in the sorted [l] when it came
    after every element of [l]: behind the elements whose key is not
    smaller. *)
Fixpoint insert_last (x : A) (l : list A) : list A :=
  match l with
  | [] => [x]
  | y :: l' =>
      if (key y <? key x)%Z then x :: y :: l' else y :: insert_last x l'
  end.

(** The heap while [nlargest] runs: ascending keys, every entry keyed by
    its element, every order above the next order to be given out. *)
Definition entry_key (e : Heapq.entry A) : Z := fst (fst e).
Definition entry_order (e : Heapq.entry A) : Z := snd (fst e).

Definition entry_ok (o : Z) (e : Heapq.entry A) : Prop :=
  entry_key e = key (snd e) /\ (o < entry_order e)%Z.

Definition heap_ok (o : Z) (h : list (Heapq.entry A)) : Prop :=
  StronglySorted (fun e f => (entry_key e <= entry_key f)%Z) h /\
  Forall (entry_ok o) h.

(** The elements of a heap in descending order of their entries. *)
Definition elems (h : list (Heapq.entry A)) : list A := map snd (rev h).

(** The invariant of the loop: after the elements [seen], the heap holds
    the first [m] of them in sorted order. *)
Definition heap_inv (m : nat) (seen : list A) (st : list (Heapq.entry A) * Z)
    : Prop :=
  heap_ok (snd st) (fst st) /\
  length (fst st) = m /\
  elems (fst st) = firstn m (Heapq.sorted_desc key seen).

End SortNotions.

Arguments key_ge {A} key x y.
Arguments insert_last {A} key x l.
Arguments entry_key {A} e.
Arguments entry_order {A} e.
Arguments entry_ok {A} key o e.
Arguments heap_ok {A} key o h.
Arguments elems {A} h.
Arguments heap_inv {A} key m seen st.

(** ** Counting *)

Definition sum_Z (l : list Z) : Z := fold_right Z.add 0%Z l.

(** What [Counter(l)] holds: unique keys, the members of [l], each with
    its number of occurrences, in the order of first occurrence. *)
Record counter_of (l : list str) (c : Counter.t) : Prop := {
  co_nodup : NoDup (Counter.keys c);
  co_keys : forall k, In k (Counter.keys c) <-> In k l;
  co_get : forall k, Counter.get c k = Z.of_nat (count_occ str_eq_dec l k);
  co_sum : sum_Z (Counter.values c) = Z.of_nat (length l);
  co_order : forall a b, subseq [a; b] (Counter.keys c) ->
    exists i j, first_index a l = Some i /\ first_index b l = Some j
                /\ (i < j)%nat
}.

(** The filtered token sequence [analyze_text] counts. *)
Definition filtered_tokens (lower_nonascii : str -> nat -> str)
    (text : str) (stopwords : PySet.t) : list str :=
  remove_stopwords (tokenize lower_nonascii text) stopwords 3.

(** The number of distinct members of a list. *)
Definition distinct_count (l : list str) : nat :=
  length (nodup str_eq_dec l).

(** ** Reading the ranking file back *)

(** [int(s)] on the decimal text [str_of_int] writes: ASCII digits after
    an optional minus sign. *)
Definition int_of_str (s : str) : option Z :=
  if forallb (fun c => (c <? 256)%N) s
  then option_map Z.of_int
         (NilZero.int_of_string (string_of_list_ascii (map ascii_of_N s)))
  else None.

(** The text [Path.read_text] returns for a file of valid UTF-8 content:
    a carriage return, alone or followed by a line feed, comes back as a
    line feed. *)
Fixpoint universal_newlines (s : str) : str :=
  match s with
  | [] => []
  | c :: s' =>
      if N.eqb c CR then
        LF :: match s' with
              | d :: s'' =>
                  if N.eqb d LF then universal_newlines s''
                  else universal_newlines s'
              | [] => []
              end
      else c :: universal_newlines s'
  end.

Definition read_text (content : str) : str := universal_newlines content.

(** The lines of a text: each is ended by a line feed, which is dropped;
    text after the last line feed is a line too. *)
Fixpoint lines_on (cur : str) (s : str) : list str :=
  match s with
  | [] => match cur with [] => [] | _ => [rev cur] end
  | c :: s' =>
      if N.eqb c LF then rev cur :: lines_on [] s'
      else lines_on (c :: cur) s'
  end.

Definition lines (s : str) : list str := lines_on [] s.

(** A data row split on the tab character: a token and a count. *)
Definition parse_row (row : str) : option (str * Z) :=
  match Str.split TAB row with
  | [word; count] => option_map (pair word) (int_of_str count)
  | _ => None
  end.

Fixpoint parse_rows (rows : list str) : option (list (str * Z)) :=
  match rows with
  | [] => Some []
  | row :: rows' =>
      match parse_row row, parse_rows rows' with
      | Some r, Some rs => Some (r :: rs)
      | _, _ => None
      end
  end.

(** The lines of a file, and its data rows: the lines after the header
    and the separator. *)
Definition file_lines (content : str) : list str := lines (read_text content).

Definition data_rows (content : str) : list str := skipn 2 (file_lines content).

Definition parse_ranking (content : str) : option (list (str * Z)) :=
  parse_rows (data_rows content).

(** The text the specification gives for the ranking file. *)
Definition ranking_text (ranked : list (str * Z)) : str :=
  header_line ++ [LF] ++ separator_line ++ [LF]
    ++ concat (map (fun row => format_row row ++ [LF]) ranked).

(** A file can be written at [p] when [p] names something, is not a
    directory, and no file stands where one of its parent directories
    would have to be. *)
Definition writable (s : Fs.fs) (p : Fs.path) : Prop :=
  p <> [] /\
  s p <> Some Fs.Dir /\
  forall pre q c, Fs.parent p = pre ++ q -> q <> [] -> s q <> Some (Fs.File c).

(** A token as the specification has it: lowercase ASCII letters, ASCII
    digits and apostrophes. *)
Definition token (t : str) : Prop := Forall token_char t.

(** A token the ranking file can carry: no tab, no line feed and no
    carriage return in it, and no surrogate code point. *)
Definition plain (word : str) : Prop :=
  ~ In TAB word /\ ~ In LF word /\ ~ In CR word /\
  Str.utf8_encodable word = true.

Definition empty_fs : Fs.fs := fun _ => None.

(** ** A lowercase table for closed examples *)

(** The Kelvin sign
    (U+212A) lowers to [k], capital I with dot above (U+0130) to [i]
    followed by a combining dot (U+0307), and every other non-ASCII code
    point is left as it is. *)
Definition sample_lower_nonascii (text : str) (i : nat) : str :=
  match nth_error text i with
  | Some c =>
      if N.eqb c 8490 then [107%N]
      else if N.eqb c 304 then [105%N; 775%N]
      else [c]
  | None => []
  end.

(** ** The command-line program *)

(** The program runs in a world of files, of lines the user will type,
    and of text shown on the terminal.  An exception ends the run
    ([None]). *)
Module Prog.

Record world := {
  files : Fs.fs;
  keyboard : list str;
  screen : str
}.

Definition t (A : Type) := world -> option (A * world).

Definition ret {A} (a : A) : t A := fun w => Some (a, w).

Definition bind {A B} (m : t A) (k : A -> t B) : t B :=
  fun w =>
    match m w with
    | Some (a, w') => k a w'
    | None => None
    end.

Definition raise {A} : t A := fun _ => None.

(** Go on when [b] holds, raise when it does not. *)
Definition ensure (b : bool) : t unit := if b then ret tt else raise.

(** An action on the files alone. *)
Definition lift {A} (m : Fs.IO A) : t A :=
  fun w =>
    match m (files w) with
    | Some (a, s') =>
        Some (a, {| files := s'; keyboard := keyboard w; screen := screen w |})
    | None => None
    end.

(** [print(s)] *)
Definition print (s : str) : t unit :=
  fun w =>
    Some (tt, {| files := files w; keyboard := keyboard w;
                 screen := screen w ++ s ++ [LF] |}).

(** [input(prompt)]: the prompt is shown, then the next line typed is
    returned without its line end; at the end of the input it raises
    ([EOFError]). *)
Definition input (prompt : str) : t str :=
  fun w =>
    match keyboard w with
    | [] => None
    | line :: rest =>
        Some (line, {| files := files w; keyboard := rest;
                       screen := screen w ++ prompt |})
    end.

(** [p.read_text(encoding="utf-8")]: the text of a file, its line ends
    translated.  It raises when there is nothing at [p]
    ([FileNotFoundError]), when [p] is a directory ([IsADirectoryError]),
    and when the bytes of the file are not valid UTF-8
    ([UnicodeDecodeError]), which shows as a surrogate in the content
    (see [Fs.entry]). *)
Definition read_text (p : Fs.path) : t str :=
  fun w =>
    match Fs.lookup (files w) p with
    | Some (Fs.File content) =>
        if Str.utf8_encodable content
        then Some (universal_newlines content, w)
        else None
    | _ => None
    end.

(** [for x in l: body(x)] *)
Fixpoint for_each {A} (l : list A) (body : A -> t unit) : t unit :=
  match l with
  | [] => ret tt
  | x :: l' => bind (body x) (fun _ => for_each l' body)
  end.

End Prog.

Declare Scope prog_scope.
Delimit Scope prog_scope with prog.
Notation "x <- m ;; k" := (Prog.bind m (fun x => k))
  (at level 61, m at next level, right associativity) : prog_scope.
Notation "m ;; k" := (Prog.bind m (fun _ => k))
  (at level 61, right associativity) : prog_scope.

(** The namespace [parse_args] returns for the parser [build_arg_parser]
    builds: [--file], [--top], [--no-viz] and [--output]. *)
Record Args := {
  file : option str;
  top : Z;
  no_viz : bool;
  output : str
}.

(** [s.ljust(width)], which is what the format [{s:<width}] produces: [s]
    followed by spaces up to the width, and [s] itself when it is longer. *)
Definition ljust (s : str) (width : nat) : str :=
  s ++ repeat 32%N (width - length s).

(** One row of the report: the text of [f"{word:<15} {count}"]. *)
Definition display_row (row : str * Z) : str :=
  let (word, count) := row in ljust word 15 ++ py " " ++ str_of_int count.

Section Main.

(** The lowercase expansions of the non-ASCII code points, see [Str.lower]. *)
Variable lower_nonascii : str -> nat -> str.

(** [Path(s)] and [p.as_posix()], the conversions between the text of a
    path and the path, which belong to [pathlib]. *)
Variable Path : str -> Fs.path.
Variable as_posix : Fs.path -> str.

(** [show_wordcloud], which hands the frequencies to the plotting
    libraries: an action of its own on the world. *)
Variable show_wordcloud : Counter.t -> Prog.t unit.

(** [main], from the namespace of the parsed arguments on.  [if args.file]
    holds for a name that is given and not empty.  An f-string is
    evaluated before it is printed: it raises when the [int] of its field
    has more digits than the interpreter converts. *)
Definition main (args : Args) : Prog.t unit :=
  (text <- match file args with
           | Some (c :: name) => Prog.read_text (Path (c :: name))
           | _ => Prog.input (py "Enter a text: ")
           end ;;
   let result := analyze_text lower_nonascii text (top args) DEFAULT_STOPWORDS in
   Prog.print ([LF] ++ py "=== RESULTS ===") ;;
   Prog.ensure (int_str_allowed (char_count result)) ;;
   Prog.print (py "Characters (including spaces): "
                 ++ str_of_int (char_count result)) ;;
   Prog.ensure (int_str_allowed (word_count result)) ;;
   Prog.print (py "Words (after cleaning & stopwords removal): "
                 ++ str_of_int (word_count result)) ;;
   Prog.ensure (int_str_allowed (top_n result)) ;;
   Prog.print ([LF] ++ py "Top " ++ str_of_int (top_n result)
                 ++ py " Most Frequent Words:") ;;
   Prog.for_each (most_common result)
     (fun row =>
        Prog.ensure (int_str_allowed (snd row)) ;;
        Prog.print (display_row row)) ;;
   let output_path := Path (output args) in
   Prog.lift (save_ranking (most_common result) output_path) ;;
   Prog.print ([LF] ++ py "Saved ranking to: " ++ as_posix output_path) ;;
   if negb (no_viz args) then show_wordcloud (frequencies result)
   else Prog.ret tt)%prog.

End Main.




(** For closed examples: a path text names a file of the directory the
    program runs in, and no window is opened. *)
Definition sample_Path (s : str) : Fs.path := [s].
Definition sample_as_posix (p : Fs.path) : str := concat p.
Definition sample_show_wordcloud (frequencies : Counter.t) : Prog.t unit :=
  Prog.ret tt.

(** * Proofs *)

(** ** Strings: basic facts *)

Lemma str_eqb_eq (s t : str) : Str.eqb s t = true <-> s = t.
Proof.
  revert t; induction s as [|c s IH]; intros [|d t]; simpl;
    try (split; [discriminate | congruence]); try tauto.
  rewrite andb_true_iff, N.eqb_eq, IH. split.
  - intros [-> ->]; reflexivity.
  - intros E; injection E; auto.
Qed.

Lemma str_eqb_refl (s : str) : Str.eqb s s = true.
Proof. apply str_eqb_eq; reflexivity. Qed.

Lemma str_eqb_neq (s t : str) : Str.eqb s t = false <-> s <> t.
Proof.
  rewrite <- str_eqb_eq. destruct (Str.eqb s t); split; congruence.
Qed.

Lemma contains_In (s : PySet.t) (x : str) :
  PySet.contains s x = true <-> In x s.
Proof.
  unfold PySet.contains. rewrite existsb_exists. split.
  - intros [y [Hy E]]. apply str_eqb_eq in E; subst; assumption.
  - intros H; exists x; split; [assumption | apply str_eqb_refl].
Qed.

(** ** The tokenizer *)

Lemma maximal_runs_sep cls c s runs :
  cls c = false -> maximal_runs cls s runs -> maximal_runs cls (c :: s) runs.
Proof.
  intros Hc H; destruct H as [sep Hs | sep run rest runs Hs Hn Hr Hrest Hruns].
  - apply runs_none; constructor; assumption.
  - change (c :: sep ++ run ++ rest) with ((c :: sep) ++ run ++ rest).
    apply runs_cons; auto.
Qed.

Lemma scan_runs cls s :
  forall cur, Forall (fun c => cls c = true) cur ->
    (cur = [] -> maximal_runs cls s (Re.scan cls cur s)) /\
    (cur <> [] ->
       exists run rest runs,
         s = run ++ rest /\
         Forall (fun c => cls c = true) run /\
         (hd_error rest = None \/
          exists c, hd_error rest = Some c /\ cls c = false) /\
         Re.scan cls cur s = (rev cur ++ run) :: runs /\
         maximal_runs cls rest runs).
Proof.
  induction s as [|c s IH]; intros cur Hcur.
  - split.
    + intros ->; simpl. apply runs_none; constructor.
    + intros Hne. exists [], [], []. simpl.
      repeat split; auto.
      * destruct cur; [congruence | rewrite app_nil_r; reflexivity].
      * apply runs_none; constructor.
  - simpl. destruct (cls c) eqn:Ec.
    + destruct (IH (c :: cur)) as [_ IH2]; [constructor; assumption |].
      destruct IH2 as (run & rest & runs & Es & Hrun & Hrest & Escan & Hruns);
        [discriminate |].
      simpl in Escan. rewrite <- app_assoc in Escan. simpl in Escan.
      split.
      * intros ->. simpl in Escan. rewrite Escan, Es.
        change (c :: run ++ rest) with ([] ++ (c :: run) ++ rest).
        apply runs_cons;
          [constructor | discriminate | constructor; assumption
          | assumption | assumption].
      * intros _. exists (c :: run), rest, runs. subst s.
        repeat split; auto.
    + destruct (IH []) as [IH1 _]; [constructor |].
      specialize (IH1 eq_refl).
      split.
      * intros ->; simpl. apply maximal_runs_sep; assumption.
      * intros Hne. exists [], (c :: s), (Re.scan cls [] s). simpl.
        repeat split; auto.
        -- right; exists c; auto.
        -- destruct cur; [congruence | simpl; rewrite app_nil_r; reflexivity].
        -- apply maximal_runs_sep; assumption.
Qed.

Lemma findall_maximal_runs cls s :
  maximal_runs cls s (Re.findall_class_plus cls s).
Proof.
  unfold Re.findall_class_plus.
  destruct (scan_runs cls s []) as [H _]; auto.
Qed.

Lemma maximal_runs_In cls s runs :
  maximal_runs cls s runs ->
  forall run, In run runs ->
    run <> [] /\ Forall (fun c => cls c = true) run /\ incl run s.
Proof.
  induction 1 as [sep Hs | sep run rest runs Hs Hn Hr Hrest Hruns IH];
    intros r Hin; [destruct Hin |].
  destruct Hin as [<- | Hin].
  - repeat split; auto. intros c Hc. apply in_or_app; right.
    apply in_or_app; left; assumption.
  - destruct (IH r Hin) as (H1 & H2 & H3). repeat split; auto.
    intros c Hc. apply in_or_app; right. apply in_or_app; right; auto.
Qed.

(** Boolean tests on code points, turned into arithmetic. *)
Ltac char_arith :=
  unfold word_char, Str.is_ascii, Str.is_ascii_upper, Str.is_ascii_lower,
    Str.is_ascii_digit, Str.ascii_lower, Str.is_surrogate, Str.APOSTROPHE,
    Str.TAB, Str.LF, Str.CR in *;
  repeat match goal with
  | H : context [N.leb ?a ?b] |- _ => destruct (N.leb_spec a b)
  | |- context [N.leb ?a ?b] => destruct (N.leb_spec a b)
  | H : context [N.ltb ?a ?b] |- _ => destruct (N.ltb_spec a b)
  | |- context [N.ltb ?a ?b] => destruct (N.ltb_spec a b)
  | H : context [N.eqb ?a ?b] |- _ => destruct (N.eqb_spec a b)
  | |- context [N.eqb ?a ?b] => destruct (N.eqb_spec a b)
  end;
  simpl in *; try discriminate; try reflexivity; try lia.

Lemma ascii_lower_not_upper c : is_ascii_upper (ascii_lower c) = false.
Proof.
  unfold Str.ascii_lower. destruct (is_ascii_upper c) eqn:E.
  - char_arith.
  - assumption.
Qed.

Lemma word_char_token_char c :
  word_char c = true -> is_ascii_upper c = false -> token_char c.
Proof.
  unfold token_char. intros Hw Hu. char_arith.
Qed.

Section LowerFacts.

Variable lower_nonascii : str -> nat -> str.

Hypothesis lower_nonascii_not_upper :
  forall text i c0, nth_error text i = Some c0 -> is_ascii c0 = false ->
    forall c, In c (lower_nonascii text i) -> is_ascii_upper c = false.

Lemma lower_from_not_upper text rest :
  forall pre, text = pre ++ rest ->
    Forall (fun c => is_ascii_upper c = false)
      (Str.lower_from lower_nonascii text (length pre) rest).
Proof.
  induction rest as [|c rest IH]; intros pre E; simpl; [constructor |].
  apply Forall_app; split.
  - destruct (is_ascii c) eqn:Ea.
    + constructor; [apply ascii_lower_not_upper | constructor].
    + apply Forall_forall. intros d Hd.
      apply (lower_nonascii_not_upper text (length pre) c); auto.
      subst text. rewrite nth_error_app2, Nat.sub_diag; auto.
  - replace (S (length pre)) with (length (pre ++ [c])).
    + apply IH. rewrite <- app_assoc; assumption.
    + rewrite length_app; simpl; lia.
Qed.

Lemma lower_not_upper text :
  Forall (fun c => is_ascii_upper c = false) (Str.lower lower_nonascii text).
Proof. apply (lower_from_not_upper text text []); reflexivity. Qed.

End LowerFacts.

Lemma sample_lower_nonascii_not_upper :
  forall text i c0, nth_error text i = Some c0 -> is_ascii c0 = false ->
    forall c, In c (sample_lower_nonascii text i) -> is_ascii_upper c = false.
Proof.
  intros text i c0 E Ha c Hc. unfold sample_lower_nonascii in Hc.
  rewrite E in Hc.
  destruct (N.eqb c0 8490); [destruct Hc as [<- | []]; reflexivity |].
  destruct (N.eqb c0 304);
    [destruct Hc as [<- | [<- | []]]; reflexivity |].
  destruct Hc as [<- | []]. char_arith.
Qed.

(** C4. Every token is a non-empty string of lowercase ASCII letters,
    ASCII digits and apostrophes; the tokens are the maximal runs of
    [[a-zA-Z0-9']] in the lowercased input, left to right; the empty input
    has no token; and ["Hello, World!"] gives ["hello"], ["world"].  The
    Unicode table is assumed to lower no code point to an ASCII capital. *)
Theorem tokenize_spec (lower_nonascii : str -> nat -> str) :
  (forall text i c0, nth_error text i = Some c0 -> is_ascii c0 = false ->
     forall c, In c (lower_nonascii text i) -> is_ascii_upper c = false) ->
  forall text,
    (forall t, In t (tokenize lower_nonascii text) ->
       t <> [] /\ Forall token_char t) /\
    maximal_runs word_char (Str.lower lower_nonascii text)
      (tokenize lower_nonascii text) /\
    tokenize lower_nonascii [] = [] /\
    tokenize lower_nonascii (py "Hello, World!") = [py "hello"; py "world"].
Proof.
  intros Hlow text.
  assert (Hruns : maximal_runs word_char (Str.lower lower_nonascii text)
                    (tokenize lower_nonascii text))
    by apply findall_maximal_runs.
  split; [| split; [exact Hruns | split; reflexivity]].
  intros t Ht.
  destruct (maximal_runs_In _ _ _ Hruns t Ht) as (Hne & Hcls & Hincl).
  split; [exact Hne |].
  apply Forall_forall. intros c Hc.
  apply word_char_token_char.
  - rewrite Forall_forall in Hcls; auto.
  - pose proof (lower_not_upper lower_nonascii Hlow text) as Hup.
    rewrite Forall_forall in Hup; auto.
Qed.

Lemma tokenize_spec_witness :
  (forall t,
     In t (tokenize sample_lower_nonascii [8490; 65; 304; 32; 39; 66; 33]%N) ->
     t <> [] /\ Forall token_char t) /\
  tokenize sample_lower_nonascii [8490; 65; 304; 32; 39; 66; 33]%N
    = [[107; 97; 105]; [39; 98]]%N.
Proof.
  split.
  - apply (tokenize_spec sample_lower_nonascii sample_lower_nonascii_not_upper).
  - reflexivity.
Defined.

(** ** The filter *)

Lemma keep_not_excluded stopwords min_len t :
  negb (PySet.contains stopwords t) && (len t >=? min_len)%Z = true
  <-> ~ excluded stopwords min_len t.
Proof.
  unfold excluded.
  rewrite andb_true_iff, negb_true_iff, Z.geb_le, <- contains_In.
  destruct (PySet.contains stopwords t); split.
  - intros [H _]; discriminate.
  - intros H; exfalso; apply H; left; reflexivity.
  - intros [_ H] [H' | H']; [discriminate | lia].
  - intros H; split; [reflexivity |].
    destruct (Z_lt_le_dec (len t) min_len); [exfalso; auto | assumption].
Qed.

Lemma StronglySorted_map_S idx :
  StronglySorted lt idx -> StronglySorted lt (map S idx).
Proof.
  induction 1 as [|i idx Hs IH Hall]; simpl; constructor; auto.
  rewrite Forall_forall in *. intros j Hj.
  apply in_map_iff in Hj. destruct Hj as [k [<- Hk]].
  apply Hall in Hk; lia.
Qed.

Lemma Forall_lt_0_map_S idx : Forall (lt 0) (map S idx).
Proof.
  apply Forall_forall. intros j Hj.
  apply in_map_iff in Hj. destruct Hj as [k [<- _]]; lia.
Qed.

Lemma filter_positions {A} (keep : A -> bool) (xs : list A) :
  exists idx,
    subsequence_at idx xs (filter keep xs) /\
    forall i, In i idx <->
      exists x, nth_error xs i = Some x /\ keep x = true.
Proof.
  induction xs as [|x xs [idx [[Hs Hm] Hi]]].
  - exists []. split; [split; [constructor | reflexivity] |].
    intros i; split; [intros [] | intros [x [H _]]].
    destruct i; discriminate.
  - assert (Hshift : forall i, In i (map S idx) <->
              exists y, nth_error (x :: xs) i = Some y /\ keep y = true
                        /\ i <> O).
    { intros i; rewrite in_map_iff; split.
      - intros [k [<- Hk]]. apply Hi in Hk. destruct Hk as [y [H1 H2]].
        exists y; auto.
      - intros [y [H1 [H2 H3]]]. destruct i as [|k]; [congruence |].
        exists k; split; [reflexivity |]. apply Hi. exists y; auto. }
    assert (Hmap : map (nth_error (x :: xs)) (map S idx)
                   = map Some (filter keep xs)).
    { rewrite map_map; simpl. exact Hm. }
    simpl. destruct (keep x) eqn:Ek.
    + exists (O :: map S idx). split; [split |].
      * constructor; [apply StronglySorted_map_S; assumption
                     | apply Forall_lt_0_map_S].
      * simpl. rewrite Hmap. reflexivity.
      * intros i; simpl; rewrite Hshift. split.
        -- intros [<- | [y [H1 [H2 _]]]]; [exists x; auto | exists y; auto].
        -- intros [y [H1 H2]]. destruct i as [|k]; [left; reflexivity |].
           right; exists y; auto.
    + exists (map S idx). split; [split |].
      * apply StronglySorted_map_S; assumption.
      * exact Hmap.
      * intros i; rewrite Hshift. split.
        -- intros [y [H1 [H2 _]]]; exists y; auto.
        -- intros [y [H1 H2]]. exists y; repeat split; auto.
           intros ->. simpl in H1. congruence.
Qed.

(** C3. [remove_stopwords] returns the tokens at a strictly increasing
    list of positions of its input (so it is a subsequence: order kept,
    nothing duplicated), and a position is left out exactly when its
    token is in the stopword set or shorter than the threshold. *)
Theorem remove_stopwords_spec
    (tokens : list str) (stopwords : PySet.t) (min_len : Z) :
  exists idx,
    subsequence_at idx tokens (remove_stopwords tokens stopwords min_len) /\
    forall i t, nth_error tokens i = Some t ->
      (~ In i idx <-> excluded stopwords min_len t).
Proof.
  unfold remove_stopwords.
  destruct (filter_positions
              (fun t => negb (PySet.contains stopwords t)
                        && (len t >=? min_len)%Z) tokens)
    as [idx [Hsub Hidx]].
  exists idx; split; [exact Hsub |].
  intros i t Ht. rewrite Hidx. split.
  - intros Hno.
    destruct (negb (PySet.contains stopwords t) && (len t >=? min_len)%Z)
      eqn:Ek.
    + exfalso; apply Hno; exists t; auto.
    + unfold excluded.
      apply andb_false_iff in Ek. destruct Ek as [Ek | Ek].
      * left. apply contains_In. apply negb_false_iff; assumption.
      * right. rewrite Z.geb_leb in Ek. apply Z.leb_gt in Ek. assumption.
  - intros Hex [t' [Ht' Hk]].
    assert (t' = t) by congruence; subst t'.
    apply keep_not_excluded in Hk. exact (Hk Hex).
Qed.

Lemma remove_stopwords_spec_witness :
  exists idx,
    subsequence_at idx [py "ini"; py "adalah"; py "contoh"; py "teks"; py "ab"]
      (remove_stopwords
         [py "ini"; py "adalah"; py "contoh"; py "teks"; py "ab"]
         DEFAULT_STOPWORDS 3) /\
    (~ In 0%nat idx <-> excluded DEFAULT_STOPWORDS 3 (py "ini")).
Proof.
  destruct (remove_stopwords_spec
              [py "ini"; py "adalah"; py "contoh"; py "teks"; py "ab"]
              DEFAULT_STOPWORDS 3) as [idx [H1 H2]].
  exists idx; split; [exact H1 |].
  apply H2. reflexivity.
Defined.

(** ** Subsequences *)

Lemma subseq_nil_l {A} (l : list A) : subseq [] l.
Proof. induction l; auto. Qed.

Lemma subseq_refl {A} (l : list A) : subseq l l.
Proof. induction l; auto. Qed.

Lemma subseq_trans {A} (a b c : list A) :
  subseq a b -> subseq b c -> subseq a c.
Proof.
  intros Hab Hbc; revert a Hab.
  induction Hbc as [| x s l H IH | x s l H IH]; intros a Hab; auto.
  inversion Hab; subst; auto.
Qed.

Lemma subseq_app {A} (a a' b b' : list A) :
  subseq a a' -> subseq b b' -> subseq (a ++ b) (a' ++ b').
Proof. induction 1; simpl; auto. Qed.

Lemma subseq_In {A} (s l : list A) x : subseq s l -> In x s -> In x l.
Proof.
  induction 1 as [| y s l H IH | y s l H IH]; simpl; auto.
  intros [-> | Hx]; auto.
Qed.

Lemma subseq_filter {A} (f : A -> bool) (l : list A) : subseq (filter f l) l.
Proof. induction l as [|x l IH]; simpl; auto. destruct (f x); auto. Qed.

Lemma subseq_filter_mono {A} (f : A -> bool) (s l : list A) :
  subseq s l -> subseq (filter f s) (filter f l).
Proof.
  induction 1 as [| x s l H IH | x s l H IH]; simpl; auto;
    destruct (f x); auto.
Qed.

Lemma subseq_map {A B} (g : A -> B) (s l : list A) :
  subseq s l -> subseq (map g s) (map g l).
Proof. induction 1; simpl; auto. Qed.

Lemma subseq_firstn {A} (n : nat) (l : list A) : subseq (firstn n l) l.
Proof.
  revert l; induction n as [|n IH]; intros [|x l]; simpl; auto.
  apply subseq_nil_l.
Qed.

Lemma subseq_snoc {A} (s K : list A) (t : A) :
  subseq s (K ++ [t]) ->
  subseq s K \/ exists s', s = s' ++ [t] /\ subseq s' K.
Proof.
  revert s; induction K as [|k K IH]; intros s H; simpl in H.
  - inversion H as [| x s0 l H0 | x s0 l H0]; subst.
    + inversion H0; subst. left; auto.
    + inversion H0; subst. right; exists []; auto.
  - inversion H as [| x s0 l H0 | x s0 l H0]; subst.
    + destruct (IH _ H0) as [H1 | [s' [-> H1]]]; [left; auto |].
      right; exists s'; auto.
    + destruct (IH _ H0) as [H1 | [s' [-> H1]]]; [left; auto |].
      right; exists (k :: s'); auto.
Qed.

Lemma nth_error_subseq_pair {A} (l : list A) i j x y :
  (i < j)%nat -> nth_error l i = Some x -> nth_error l j = Some y ->
  subseq [x; y] l.
Proof.
  intros Hij Hi Hj.
  destruct (nth_error_split l i Hi) as (l1 & l2 & -> & Hlen).
  rewrite nth_error_app2 in Hj by lia.
  replace (j - length l1)%nat with (S (j - i - 1)) in Hj by lia.
  simpl in Hj.
  destruct (nth_error_split l2 _ Hj) as (l3 & l4 & -> & _).
  change [x; y] with ([] ++ [x] ++ [] ++ [y] ++ []).
  change (l1 ++ x :: l3 ++ y :: l4) with (l1 ++ [x] ++ l3 ++ [y] ++ l4).
  repeat apply subseq_app; auto using subseq_nil_l, subseq_refl.
Qed.

(** ** The stable descending sort *)

Section SortFacts.

Variable A : Type.
Variable key : A -> Z.

Lemma insert_desc_In x l y :
  In y (Heapq.insert_desc key x l) <-> y = x \/ In y l.
Proof.
  induction l as [|z l IH]; simpl.
  - intuition congruence.
  - destruct (key x <? key z)%Z; simpl; rewrite ?IH; intuition congruence.
Qed.

Lemma insert_desc_length x l :
  length (Heapq.insert_desc key x l) = S (length l).
Proof.
  induction l as [|z l IH]; simpl; auto.
  destruct (key x <? key z)%Z; simpl; auto.
Qed.

Lemma sorted_desc_In l y : In y (Heapq.sorted_desc key l) <-> In y l.
Proof.
  induction l as [|x l IH]; simpl; [tauto |].
  rewrite insert_desc_In, IH. intuition congruence.
Qed.

Lemma sorted_desc_length l : length (Heapq.sorted_desc key l) = length l.
Proof.
  induction l as [|x l IH]; simpl; auto.
  rewrite insert_desc_length; auto.
Qed.

Lemma insert_desc_sorted x l :
  StronglySorted (key_ge key) l -> StronglySorted (key_ge key) (Heapq.insert_desc key x l).
Proof.
  induction 1 as [|z l Hs IH Hall]; simpl.
  - constructor; constructor.
  - destruct (key x <? key z)%Z eqn:E.
    + constructor; auto.
      apply Forall_forall. intros y Hy. apply insert_desc_In in Hy.
      destruct Hy as [-> | Hy].
      * unfold key_ge. apply Z.ltb_lt in E. lia.
      * rewrite Forall_forall in Hall; auto.
    + apply Z.ltb_ge in E. constructor; [constructor; auto |].
      constructor; [exact E |].
      rewrite Forall_forall in *. intros y Hy. unfold key_ge in *.
      specialize (Hall y Hy). lia.
Qed.

Lemma sorted_desc_sorted l : StronglySorted (key_ge key) (Heapq.sorted_desc key l).
Proof.
  induction l as [|x l IH]; simpl; [constructor | apply insert_desc_sorted; auto].
Qed.

(** Stability: the elements of any one key come out in the order they
    went in. *)
Lemma insert_desc_filter_key k x l :
  filter (fun y => Z.eqb (key y) k) (Heapq.insert_desc key x l)
  = filter (fun y => Z.eqb (key y) k) (x :: l).
Proof.
  induction l as [|z l IH]; simpl; auto.
  destruct (key x <? key z)%Z eqn:E; simpl; auto.
  simpl in IH. rewrite IH. apply Z.ltb_lt in E.
  destruct (Z.eqb_spec (key x) k), (Z.eqb_spec (key z) k); auto; lia.
Qed.

Lemma sorted_desc_stable k l :
  filter (fun y => Z.eqb (key y) k) (Heapq.sorted_desc key l)
  = filter (fun y => Z.eqb (key y) k) l.
Proof.
  induction l as [|x l IH]; simpl; auto.
  rewrite insert_desc_filter_key. simpl. rewrite IH. reflexivity.
Qed.

Lemma StronglySorted_nth_error (R : A -> A -> Prop) l :
  StronglySorted R l ->
  forall i j x y, (i < j)%nat ->
    nth_error l i = Some x -> nth_error l j = Some y -> R x y.
Proof.
  induction 1 as [|z l Hs IH Hall]; intros i j x y Hij Hi Hj.
  - destruct i; discriminate.
  - destruct j as [|j]; [lia |]. simpl in Hj. destruct i as [|i].
    + simpl in Hi. injection Hi as <-.
      rewrite Forall_forall in Hall. apply Hall.
      eapply nth_error_In; eauto.
    + simpl in Hi. apply (IH i j); auto; lia.
Qed.

(** *** [heapq.nlargest] is the stable sort, cut *)

Lemma insert_desc_insert_last p x l :
  Heapq.insert_desc key p (insert_last key x l)
  = insert_last key x (Heapq.insert_desc key p l).
Proof.
  induction l as [|y l IH]; simpl.
  - destruct (Z.ltb_spec (key p) (key x)); simpl;
      destruct (Z.ltb_spec (key p) (key x)); auto; lia.
  - destruct (Z.ltb_spec (key y) (key x)), (Z.ltb_spec (key p) (key y));
      simpl;
      repeat match goal with
      | |- context [(?a <? ?b)%Z] => destruct (Z.ltb_spec a b); try lia
      end; simpl; auto.
    rewrite IH. reflexivity.
Qed.

Lemma sorted_desc_snoc l x :
  Heapq.sorted_desc key (l ++ [x]) = insert_last key x (Heapq.sorted_desc key l).
Proof.
  induction l as [|p l IH]; simpl; auto.
  rewrite IH. apply insert_desc_insert_last.
Qed.

Lemma insert_last_length x l : length (insert_last key x l) = S (length l).
Proof.
  induction l as [|y l IH]; simpl; auto.
  destruct (key y <? key x)%Z; simpl; auto.
Qed.

Lemma insert_last_all_ge x F R :
  Forall (fun y => (key x <= key y)%Z) F ->
  insert_last key x (F ++ R) = F ++ insert_last key x R.
Proof.
  induction 1 as [|y F Hy HF IH]; simpl; auto.
  destruct (Z.ltb_spec (key y) (key x)); [lia |]. rewrite IH. reflexivity.
Qed.

Lemma insert_last_before x F m R :
  (key m < key x)%Z ->
  insert_last key x (F ++ m :: R) = insert_last key x F ++ m :: R.
Proof.
  intros Hm. induction F as [|y F IH]; simpl.
  - destruct (Z.ltb_spec (key m) (key x)); [reflexivity | lia].
  - destruct (key y <? key x)%Z; simpl; auto. rewrite IH. reflexivity.
Qed.

Lemma max_first_hd x l :
  hd_error (Heapq.sorted_desc key (x :: l)) = Some (Heapq.max_first key x l).
Proof.
  induction l as [|y l IH] using rev_ind.
  - reflexivity.
  - unfold Heapq.max_first in *. rewrite fold_left_app. simpl fold_left.
    change (x :: l ++ [y]) with ((x :: l) ++ [y]).
    rewrite sorted_desc_snoc.
    destruct (Heapq.sorted_desc key (x :: l)) as [|m S]; [discriminate |].
    simpl in IH. injection IH as <-. simpl.
    destruct (key m <? key y)%Z; reflexivity.
Qed.

Lemma elems_cons (e : Heapq.entry A) h : elems (e :: h) = elems h ++ [snd e].
Proof. unfold elems. simpl. rewrite map_app. reflexivity. Qed.

Lemma elems_length (h : list (Heapq.entry A)) : length (elems h) = length h.
Proof. unfold elems. rewrite length_map, length_rev. reflexivity. Qed.

Lemma entry_lt_newest o x f :
  entry_ok key o f ->
  Heapq.entry_lt (key x, o, x) f = (key x <=? entry_key f)%Z.
Proof.
  destruct f as [[kf o'] ef]. unfold entry_ok, entry_key, entry_order.
  simpl. intros [_ Ho].
  destruct (Z.ltb_spec (key x) kf), (Z.eqb_spec (key x) kf),
    (Z.ltb_spec o o'), (Z.leb_spec (key x) kf); simpl; auto; lia.
Qed.

Lemma heap_ok_tl o f h : heap_ok key o (f :: h) -> heap_ok key o h.
Proof.
  intros [Hs Ha]. inversion Hs; inversion Ha; subst. split; assumption.
Qed.

Lemma heap_ok_keys o f h :
  heap_ok key o (f :: h) ->
  Forall (fun y => (entry_key f <= key y)%Z) (elems (f :: h)).
Proof.
  intros [Hs Ha]. unfold elems. apply Forall_forall. intros y Hy.
  apply in_map_iff in Hy. destruct Hy as [g [<- Hg]].
  apply in_rev in Hg.
  rewrite Forall_forall in Ha. destruct (Ha g Hg) as [<- _].
  inversion Hs as [|? ? _ Hall]; subst.
  destruct Hg as [<- | Hg]; [lia |].
  rewrite Forall_forall in Hall. auto.
Qed.

Lemma heap_insert_length (e : Heapq.entry A) h :
  length (Heapq.heap_insert e h) = S (length h).
Proof.
  induction h as [|f h IH]; simpl; auto.
  destruct (Heapq.entry_lt e f); simpl; auto.
Qed.

Lemma heap_insert_In (e g : Heapq.entry A) h :
  In g (Heapq.heap_insert e h) <-> g = e \/ In g h.
Proof.
  induction h as [|f h IH]; simpl.
  - intuition congruence.
  - destruct (Heapq.entry_lt e f); simpl; rewrite ?IH; intuition congruence.
Qed.

Lemma heap_insert_elems o x h :
  heap_ok key o h ->
  elems (Heapq.heap_insert (key x, o, x) h) = insert_last key x (elems h).
Proof.
  induction h as [|f h IH]; intros Hok; [reflexivity |].
  assert (Hf : entry_ok key o f) by (destruct Hok as [_ Ha]; inversion Ha; auto).
  cbn [Heapq.heap_insert]. rewrite (entry_lt_newest o x f Hf).
  destruct (Z.leb_spec (key x) (entry_key f)).
  - rewrite (elems_cons (key x, o, x)). simpl snd.
    rewrite <- (app_nil_r (elems (f :: h))) at 2.
    rewrite insert_last_all_ge; [reflexivity |].
    eapply Forall_impl; [| apply (heap_ok_keys o f h Hok)].
    simpl. intros; lia.
  - rewrite !(elems_cons f).
    rewrite IH by (eapply heap_ok_tl; eauto).
    rewrite insert_last_before; [reflexivity |].
    destruct Hf as [<- _]. assumption.
Qed.

Lemma heap_insert_ok o x h :
  heap_ok key o h -> heap_ok key (o - 1) (Heapq.heap_insert (key x, o, x) h).
Proof.
  intros Hok. split.
  - induction h as [|f h IH]; cbn [Heapq.heap_insert].
    + constructor; constructor.
    + assert (Hf : entry_ok key o f)
        by (destruct Hok as [_ Ha]; inversion Ha; auto).
      rewrite (entry_lt_newest o x f Hf).
      destruct Hok as [Hs Ha]. inversion Hs as [|? ? Hs' Hall]; subst.
      inversion Ha as [|? ? _ Ha']; subst.
      destruct (Z.leb_spec (key x) (entry_key f)).
      * constructor; [assumption |]. constructor; [assumption |].
        eapply Forall_impl; [| exact Hall]. intros g Hg. simpl in Hg.
        change (entry_key (key x, o, x)) with (key x). lia.
      * constructor; [apply IH; split; assumption |].
        apply Forall_forall. intros g Hg. apply heap_insert_In in Hg.
        destruct Hg as [-> | Hg];
          [change (entry_key (key x, o, x)) with (key x); lia |].
        rewrite Forall_forall in Hall; auto.
  - apply Forall_forall. intros g Hg. apply heap_insert_In in Hg.
    destruct Hg as [-> | Hg].
    + split; [reflexivity | unfold entry_order; simpl; lia].
    + destruct Hok as [_ Ha]. rewrite Forall_forall in Ha.
      destruct (Ha g Hg) as [H1 H2]. split; [assumption | lia].
Qed.

Lemma decorate_snoc i l x :
  Heapq.decorate key i (l ++ [x])
  = Heapq.decorate key i l ++ [(key x, (i - Z.of_nat (length l))%Z, x)].
Proof.
  revert i; induction l as [|y l IH]; intros i.
  - simpl. rewrite Z.sub_0_r. reflexivity.
  - cbn [Heapq.decorate app length]. rewrite IH, Nat2Z.inj_succ.
    replace (i - 1 - Z.of_nat (length l))%Z
      with (i - Z.succ (Z.of_nat (length l)))%Z by lia.
    reflexivity.
Qed.

Lemma heapify_decorate l :
  heap_ok key (- Z.of_nat (length l)) (Heapq.heapify (Heapq.decorate key 0 l)) /\
  elems (Heapq.heapify (Heapq.decorate key 0 l)) = Heapq.sorted_desc key l /\
  length (Heapq.heapify (Heapq.decorate key 0 l)) = length l.
Proof.
  induction l as [|x l (Hok & Hel & Hlen)] using rev_ind.
  - repeat split; constructor.
  - rewrite decorate_snoc. unfold Heapq.heapify in *.
    rewrite fold_left_app. simpl fold_left.
    change (0 - Z.of_nat (length l))%Z with (- Z.of_nat (length l))%Z.
    rewrite length_app, sorted_desc_snoc. simpl length.
    split; [| split].
    + replace (- Z.of_nat (length l + 1))%Z
        with (- Z.of_nat (length l) - 1)%Z by lia.
      apply heap_insert_ok; assumption.
    + rewrite (heap_insert_elems _ _ _ Hok), Hel. reflexivity.
    + rewrite heap_insert_length, Hlen. lia.
Qed.

Lemma firstn_app_exact {B} (a b : list B) : firstn (length a) (a ++ b) = a.
Proof.
  rewrite firstn_app, Nat.sub_diag, firstn_all. simpl. apply app_nil_r.
Qed.

Lemma nlargest_step_inv m seen st x :
  (1 <= m)%nat -> heap_inv key m seen st ->
  heap_inv key m (seen ++ [x]) (Heapq.nlargest_step key st x).
Proof.
  destruct st as [h o]. unfold heap_inv. intros Hm (Hok & Hlen & Hel).
  simpl fst in *. simpl snd in *.
  destruct h as [|f h]; [simpl in Hlen; lia |].
  assert (Hf : entry_ok key o f) by (destruct Hok as [_ Ha]; inversion Ha; auto).
  assert (Htop : Heapq.top (f :: h) = entry_key f)
    by (destruct f as [[? ?] ?]; reflexivity).
  unfold Heapq.nlargest_step. rewrite Htop.
  rewrite sorted_desc_snoc.
  rewrite <- (firstn_skipn m (Heapq.sorted_desc key seen)), <- Hel.
  set (R := skipn m (Heapq.sorted_desc key seen)).
  assert (Hlen' : length (elems (f :: h)) = m)
    by (rewrite elems_length; assumption).
  destruct (Z.ltb_spec (entry_key f) (key x)) as [Hlt | Hge].
  - unfold Heapq.heapreplace. simpl tl. simpl fst. simpl snd.
    assert (Hh : heap_ok key o h) by (eapply heap_ok_tl; eauto).
    split; [apply heap_insert_ok; assumption | split].
    + rewrite heap_insert_length. simpl in Hlen. assumption.
    + rewrite (heap_insert_elems _ _ _ Hh).
      rewrite (elems_cons f), <- app_assoc. simpl app.
      rewrite insert_last_before by (destruct Hf as [<- _]; assumption).
      replace m with (length (insert_last key x (elems h))).
      * symmetry. apply firstn_app_exact.
      * rewrite insert_last_length, elems_length. simpl in Hlen. assumption.
  - simpl fst. simpl snd. split; [assumption | split; [assumption |]].
    rewrite insert_last_all_ge.
    + rewrite <- Hlen' at 1. symmetry. apply firstn_app_exact.
    + eapply Forall_impl; [| apply (heap_ok_keys o f h Hok)].
      simpl. intros; lia.
Qed.

Lemma nlargest_loop_inv m rest : forall seen st,
  (1 <= m)%nat -> heap_inv key m seen st ->
  heap_inv key m (seen ++ rest) (fold_left (Heapq.nlargest_step key) rest st).
Proof.
  induction rest as [|x rest IH]; intros seen st Hm Hinv; simpl.
  - rewrite app_nil_r. assumption.
  - replace (seen ++ x :: rest) with ((seen ++ [x]) ++ rest)
      by (rewrite <- app_assoc; reflexivity).
    apply IH; [assumption |]. apply nlargest_step_inv; assumption.
Qed.

(** The three cases of the library agree with its documentation:
    [nlargest(n, it, key)] is [sorted(it, key=key, reverse=True)[:n]] for
    [n >= 0], and empty for a negative [n]. *)
Lemma nlargest_eq n l :
  Heapq.nlargest key n l = firstn (Z.to_nat n) (Heapq.sorted_desc key l).
Proof.
  unfold Heapq.nlargest.
  destruct (Z.eqb_spec n 1) as [-> | Hn1].
  - destruct l as [|x rest]; [reflexivity |].
    pose proof (max_first_hd x rest) as H.
    destruct (Heapq.sorted_desc key (x :: rest)) as [|m S]; [discriminate |].
    simpl in H. injection H as <-. reflexivity.
  - unfold len. destruct (Z.geb_spec n (Z.of_nat (length l))) as [Hge | Hlt];
      [reflexivity |].
    destruct (Z_le_gt_dec n 0) as [Hn0 | Hpos].
    + replace (Z.to_nat n) with O by lia. reflexivity.
    + set (m := Z.to_nat n).
      assert (Hm : (1 <= m <= length l)%nat) by lia.
      destruct (heapify_decorate (firstn m l)) as (Hok & Hel & Hlen).
      rewrite length_firstn, Nat.min_l in Hok, Hlen by lia.
      assert (Hinv : heap_inv key m (firstn m l)
                (Heapq.heapify (Heapq.decorate key 0 (firstn m l)), (- n)%Z)).
      { split; [| split]; simpl.
        - replace (- n)%Z with (- Z.of_nat m)%Z by lia. assumption.
        - assumption.
        - rewrite Hel. symmetry. apply firstn_all2.
          rewrite sorted_desc_length, length_firstn. lia. }
      pose proof (nlargest_loop_inv m (skipn m l) _ _ (proj1 Hm) Hinv)
        as (_ & _ & Hfinal).
      rewrite firstn_skipn in Hfinal.
      destruct (Heapq.decorate key 0 (firstn m l)) as [|e es] eqn:Ed.
      * destruct l as [|x l]; [simpl in Hm; lia |].
        destruct m as [|m']; [lia | discriminate].
      * exact Hfinal.
Qed.

End SortFacts.

(** ** Counters *)

Lemma first_index_snoc x l t :
  first_index x (l ++ [t]) =
  match first_index x l with
  | Some i => Some i
  | None => if Str.eqb t x then Some (length l) else None
  end.
Proof.
  induction l as [|y l IH]; simpl.
  - destruct (Str.eqb t x); reflexivity.
  - destruct (Str.eqb y x); [reflexivity |].
    rewrite IH. destruct (first_index x l); simpl; [reflexivity |].
    destruct (Str.eqb t x); reflexivity.
Qed.

Lemma first_index_In x l :
  In x l -> exists i, first_index x l = Some i /\ (i < length l)%nat.
Proof.
  induction l as [|y l IH]; simpl; [intros [] |].
  intros H. destruct (Str.eqb y x) eqn:E.
  - exists O; split; [reflexivity | lia].
  - destruct H as [-> | H]; [rewrite str_eqb_refl in E; discriminate |].
    destruct (IH H) as [i [-> Hi]]. exists (S i); split; [reflexivity | lia].
Qed.

Lemma first_index_not_In x l : ~ In x l -> first_index x l = None.
Proof.
  induction l as [|y l IH]; simpl; [reflexivity |].
  intros H. destruct (Str.eqb y x) eqn:E.
  - apply str_eqb_eq in E. exfalso; auto.
  - rewrite IH; auto.
Qed.

Lemma get_set_item_same c k v : Counter.get (Counter.set_item c k v) k = v.
Proof.
  induction c as [|[k' v'] c IH]; simpl.
  - rewrite str_eqb_refl; reflexivity.
  - destruct (Str.eqb k' k) eqn:E; simpl; rewrite E; auto.
Qed.

Lemma get_set_item_other c k v k' :
  k <> k' -> Counter.get (Counter.set_item c k v) k' = Counter.get c k'.
Proof.
  intros Hne. induction c as [|[k0 v0] c IH]; simpl.
  - apply str_eqb_neq in Hne. rewrite Hne; reflexivity.
  - destruct (Str.eqb k0 k) eqn:E; simpl.
    + apply str_eqb_eq in E; subst k0.
      apply str_eqb_neq in Hne. rewrite Hne. reflexivity.
    + rewrite IH. reflexivity.
Qed.

Lemma keys_set_item_old c k v :
  In k (Counter.keys c) -> Counter.keys (Counter.set_item c k v) = Counter.keys c.
Proof.
  unfold Counter.keys. induction c as [|[k' v'] c IH]; simpl; [intros [] |].
  intros H. destruct (Str.eqb k' k) eqn:E; simpl; [reflexivity |].
  destruct H as [-> | H]; [rewrite str_eqb_refl in E; discriminate |].
  rewrite IH; auto.
Qed.

Lemma keys_set_item_new c k v :
  ~ In k (Counter.keys c) ->
  Counter.keys (Counter.set_item c k v) = Counter.keys c ++ [k].
Proof.
  unfold Counter.keys. induction c as [|[k' v'] c IH]; simpl; [reflexivity |].
  intros H. destruct (Str.eqb k' k) eqn:E; simpl.
  - apply str_eqb_eq in E. exfalso; auto.
  - rewrite IH; auto.
Qed.

Lemma sum_values_set_item c k v :
  sum_Z (Counter.values (Counter.set_item c k v))
  = (sum_Z (Counter.values c) - Counter.get c k + v)%Z.
Proof.
  unfold Counter.values. induction c as [|[k' v'] c IH]; simpl; [lia |].
  destruct (Str.eqb k' k); simpl; lia.
Qed.

(** With unique keys, an item carries the count [get] returns. *)
Lemma In_items_get c k v :
  NoDup (Counter.keys c) -> In (k, v) (Counter.items c) -> Counter.get c k = v.
Proof.
  unfold Counter.keys, Counter.items.
  induction c as [|[k' v'] c IH]; simpl; [intros _ [] |].
  intros Hnd [E | H].
  - injection E as -> ->. rewrite str_eqb_refl; reflexivity.
  - inversion Hnd as [|? ? Hnot Hnd']; subst.
    destruct (Str.eqb k' k) eqn:E.
    + apply str_eqb_eq in E; subst k'. exfalso; apply Hnot.
      apply in_map_iff. exists (k, v); auto.
    + auto.
Qed.

Lemma count_elements_snoc c l t :
  Counter.count_elements c (l ++ [t])
  = Counter.set_item (Counter.count_elements c l) t
      (Counter.get (Counter.count_elements c l) t + 1)%Z.
Proof. unfold Counter.count_elements. rewrite fold_left_app. reflexivity. Qed.

Lemma of_iterable_counter_of l : counter_of l (Counter.of_iterable l).
Proof.
  unfold Counter.of_iterable.
  induction l as [|t l IH] using rev_ind.
  - constructor; simpl; try reflexivity; try tauto.
    + constructor.
    + intros a b H; inversion H.
  - rewrite count_elements_snoc.
    set (c := Counter.count_elements [] l) in *.
    destruct IH as [Hnd Hkeys Hget Hsum Hord].
    destruct (in_dec str_eq_dec t (Counter.keys c)) as [Hin | Hnin].
    + constructor.
      * rewrite keys_set_item_old; auto.
      * intros k. rewrite keys_set_item_old, Hkeys, in_app_iff by auto.
        simpl. split; [auto |].
        intros [H | [<- | []]]; [auto | apply Hkeys; auto].
      * intros k. rewrite count_occ_app. simpl.
        destruct (str_eq_dec t k) as [<- | Hne].
        -- rewrite get_set_item_same, Hget. lia.
        -- rewrite get_set_item_other, Hget by auto. lia.
      * rewrite sum_values_set_item, Hsum, length_app. simpl. lia.
      * intros a b H. rewrite keys_set_item_old in H by auto.
        destruct (Hord a b H) as (i & j & Hi & Hj & Hij).
        exists i, j. rewrite !first_index_snoc, Hi, Hj. auto.
    + assert (Hnl : ~ In t l) by (rewrite <- Hkeys; assumption).
      constructor.
      * rewrite keys_set_item_new by auto.
        apply NoDup_app; [assumption | constructor; [intros [] | constructor] |].
        intros x Hx [<- | []]. auto.
      * intros k. rewrite keys_set_item_new, !in_app_iff, Hkeys by auto.
        reflexivity.
      * intros k. rewrite count_occ_app. simpl.
        destruct (str_eq_dec t k) as [<- | Hne].
        -- rewrite get_set_item_same, Hget. lia.
        -- rewrite get_set_item_other, Hget by auto. lia.
      * rewrite sum_values_set_item, Hsum, Hget, length_app.
        rewrite (proj1 (count_occ_not_In str_eq_dec l t) Hnl). simpl. lia.
      * intros a b H. rewrite keys_set_item_new in H by auto.
        apply subseq_snoc in H. destruct H as [H | [s' [E H]]].
        -- destruct (Hord a b H) as (i & j & Hi & Hj & Hij).
           exists i, j. rewrite !first_index_snoc, Hi, Hj. auto.
        -- destruct s' as [|a' [|b' s']]; simpl in E;
             [discriminate | | destruct s'; discriminate].
           injection E as Ea Eb; subst a' b.
           assert (Ha : In a l).
           { apply Hkeys. eapply subseq_In; [exact H | left; reflexivity]. }
           destruct (first_index_In a l Ha) as [i [Hi Hlt]].
           exists i, (length l). rewrite !first_index_snoc, Hi.
           rewrite (first_index_not_In t l Hnl), str_eqb_refl. auto.
Qed.

Lemma subseq_NoDup {A} (s l : list A) : subseq s l -> NoDup l -> NoDup s.
Proof.
  induction 1 as [| x s l H IH | x s l H IH]; intros Hnd; auto.
  - inversion Hnd; auto.
  - inversion Hnd as [|? ? Hnot Hnd']; subst. constructor; auto.
    intros Hx. apply Hnot. eapply subseq_In; eauto.
Qed.

Lemma insert_desc_Permutation {A} (key : A -> Z) x l :
  Permutation (Heapq.insert_desc key x l) (x :: l).
Proof.
  induction l as [|z l IH]; simpl; auto.
  destruct (key x <? key z)%Z; auto.
  rewrite IH. apply perm_swap.
Qed.

Lemma sorted_desc_Permutation {A} (key : A -> Z) l :
  Permutation (Heapq.sorted_desc key l) l.
Proof.
  induction l as [|x l IH]; simpl; auto.
  rewrite insert_desc_Permutation. auto.
Qed.

Lemma nth_error_firstn_Some {A} (n : nat) (l : list A) i x :
  nth_error (firstn n l) i = Some x -> nth_error l i = Some x.
Proof.
  revert l i; induction n as [|n IH]; intros [|y l] [|i]; simpl;
    try discriminate; auto.
Qed.

(** ** The analysis *)

Section AnalysisFacts.

Variable lower_nonascii : str -> nat -> str.
Variables (text : str) (n : Z) (stopwords : PySet.t).

Let filtered := filtered_tokens lower_nonascii text stopwords.
Let result := analyze_text lower_nonascii text n stopwords.

Lemma frequencies_counter_of : counter_of filtered (frequencies result).
Proof. apply of_iterable_counter_of. Qed.

Lemma most_common_eq :
  most_common result
  = firstn (Z.to_nat n)
      (Heapq.sorted_desc snd (Counter.items (frequencies result))).
Proof. apply nlargest_eq. Qed.

Lemma most_common_In_items x :
  In x (most_common result) -> In x (Counter.items (frequencies result)).
Proof.
  rewrite most_common_eq. intros H.
  apply (sorted_desc_In _ snd). eapply subseq_In; [apply subseq_firstn | exact H].
Qed.

Lemma keys_length_distinct :
  length (Counter.keys (frequencies result)) = distinct_count filtered.
Proof.
  destruct frequencies_counter_of as [Hnd Hkeys _ _ _].
  unfold distinct_count. apply Nat.le_antisymm.
  - apply NoDup_incl_length; [assumption |].
    intros k Hk. apply nodup_In. apply Hkeys; assumption.
  - apply NoDup_incl_length; [apply NoDup_nodup |].
    intros k Hk. apply Hkeys. apply nodup_In in Hk; assumption.
Qed.

End AnalysisFacts.

(** C1. For a positive top-N, the ranked list is ordered by count
    descending, and of two entries with equal counts the one whose token
    first appears earlier in the filtered token sequence ranks higher. *)
Theorem analyze_text_ranking_order
    (lower_nonascii : str -> nat -> str) (text : str) (n : Z)
    (stopwords : PySet.t) (i j : nat) (ti tj : str) (ci cj : Z) :
  (0 < n)%Z ->
  (i < j)%nat ->
  nth_error (most_common (analyze_text lower_nonascii text n stopwords)) i
    = Some (ti, ci) ->
  nth_error (most_common (analyze_text lower_nonascii text n stopwords)) j
    = Some (tj, cj) ->
  (cj <= ci)%Z /\
  (ci = cj ->
   exists pi pj,
     first_index ti (filtered_tokens lower_nonascii text stopwords) = Some pi /\
     first_index tj (filtered_tokens lower_nonascii text stopwords) = Some pj /\
     (pi < pj)%nat).
Proof.
  intros _ Hij Hi Hj.
  rewrite most_common_eq in Hi, Hj.
  apply nth_error_firstn_Some in Hi, Hj.
  set (c := frequencies (analyze_text lower_nonascii text n stopwords)) in *.
  split.
  - apply (StronglySorted_nth_error _ (key_ge snd) _
             (sorted_desc_sorted _ snd (Counter.items c)) i j (ti, ci) (tj, cj));
      assumption.
  - intros <-.
    pose proof (nth_error_subseq_pair _ i j _ _ Hij Hi Hj) as Hsub.
    apply (subseq_filter_mono (fun y => Z.eqb (snd y) ci)) in Hsub.
    rewrite sorted_desc_stable in Hsub. simpl in Hsub.
    rewrite Z.eqb_refl in Hsub.
    pose proof (subseq_trans _ _ _ Hsub (subseq_filter _ _)) as Hitems.
    apply (subseq_map fst) in Hitems. simpl in Hitems.
    apply (co_order _ _ (frequencies_counter_of lower_nonascii text n stopwords)).
    exact Hitems.
Qed.

Lemma analyze_text_ranking_order_witness :
  (2 <= 2)%Z /\
  (2%Z = 2%Z ->
   exists pi pj,
     first_index (py "dua")
       (filtered_tokens sample_lower_nonascii
          (py "dua satu satu dua tiga") DEFAULT_STOPWORDS) = Some pi /\
     first_index (py "satu")
       (filtered_tokens sample_lower_nonascii
          (py "dua satu satu dua tiga") DEFAULT_STOPWORDS) = Some pj /\
     (pi < pj)%nat).
Proof.
  apply (analyze_text_ranking_order sample_lower_nonascii
           (py "dua satu satu dua tiga") 2 DEFAULT_STOPWORDS
           0 1 (py "dua") (py "satu") 2 2);
    [lia | lia | reflexivity | reflexivity].
Defined.

(** C5. For a positive top-N the ranked list has [min(N, d)] entries,
    where [d] is the number of distinct filtered tokens; when [d] does not
    exceed [N] its tokens are exactly the filtered tokens (nothing is
    missing and nothing is added); and it is empty when [N <= 0]. *)
Theorem analyze_text_ranking_length
    (lower_nonascii : str -> nat -> str) (text : str) (n : Z)
    (stopwords : PySet.t) :
  ((0 < n)%Z ->
   length (most_common (analyze_text lower_nonascii text n stopwords))
   = Nat.min (Z.to_nat n)
       (distinct_count (filtered_tokens lower_nonascii text stopwords))) /\
  ((0 < n)%Z ->
   (Z.of_nat (distinct_count (filtered_tokens lower_nonascii text stopwords))
      <= n)%Z ->
   forall t,
     In t (map fst (most_common (analyze_text lower_nonascii text n stopwords)))
     <-> In t (filtered_tokens lower_nonascii text stopwords)) /\
  ((n <= 0)%Z ->
   most_common (analyze_text lower_nonascii text n stopwords) = []).
Proof.
  pose proof (keys_length_distinct lower_nonascii text n stopwords) as Hlen.
  pose proof (frequencies_counter_of lower_nonascii text n stopwords) as Hc.
  rewrite most_common_eq.
  set (c := frequencies (analyze_text lower_nonascii text n stopwords)) in *.
  unfold Counter.keys in Hlen. rewrite length_map in Hlen.
  split; [| split].
  - intros _. rewrite length_firstn, sorted_desc_length.
    unfold Counter.items. rewrite Hlen. reflexivity.
  - intros _ Hle t. rewrite firstn_all2.
    + rewrite <- (co_keys _ _ Hc t). unfold Counter.keys.
      rewrite !in_map_iff. split; intros [x [E Hx]]; exists x; split; auto;
        apply (sorted_desc_In _ snd); assumption.
    + rewrite sorted_desc_length. unfold Counter.items. lia.
  - intros Hn. replace (Z.to_nat n) with O by lia. reflexivity.
Qed.

Lemma analyze_text_ranking_length_witness :
  length (most_common (analyze_text sample_lower_nonascii
            (py "dua satu satu dua tiga") 2 DEFAULT_STOPWORDS)) = 2%nat /\
  (forall t,
     In t (map fst (most_common (analyze_text sample_lower_nonascii
             (py "dua satu satu dua tiga") 5 DEFAULT_STOPWORDS)))
     <-> In t (filtered_tokens sample_lower_nonascii
                 (py "dua satu satu dua tiga") DEFAULT_STOPWORDS)) /\
  most_common (analyze_text sample_lower_nonascii
     (py "dua satu satu dua tiga") (-1) DEFAULT_STOPWORDS) = [].
Proof.
  split; [| split].
  - apply (proj1 (analyze_text_ranking_length sample_lower_nonascii
                    (py "dua satu satu dua tiga") 2 DEFAULT_STOPWORDS)). lia.
  - apply (proj1 (proj2 (analyze_text_ranking_length sample_lower_nonascii
                    (py "dua satu satu dua tiga") 5 DEFAULT_STOPWORDS))).
    + lia.
    + vm_compute. discriminate.
  - apply (proj2 (proj2 (analyze_text_ranking_length sample_lower_nonascii
                    (py "dua satu satu dua tiga") (-1) DEFAULT_STOPWORDS))). lia.
Defined.

(** C9. The word count is the sum of the counts in the frequency table. *)
Theorem analyze_text_word_count_sum
    (lower_nonascii : str -> nat -> str) (text : str) (n : Z)
    (stopwords : PySet.t) :
  word_count (analyze_text lower_nonascii text n stopwords)
  = sum_Z (Counter.values
             (frequencies (analyze_text lower_nonascii text n stopwords))).
Proof.
  symmetry.
  apply (co_sum _ _ (frequencies_counter_of lower_nonascii text n stopwords)).
Qed.

(** C10. Every entry of the ranked list carries the count the frequency
    table holds for its token, that count is at least one, and no token
    appears in two entries. *)
Theorem analyze_text_most_common_entries
    (lower_nonascii : str -> nat -> str) (text : str) (n : Z)
    (stopwords : PySet.t) :
  (forall t c,
     In (t, c) (most_common (analyze_text lower_nonascii text n stopwords)) ->
     c = Counter.get
           (frequencies (analyze_text lower_nonascii text n stopwords)) t /\
     (1 <= c)%Z) /\
  NoDup (map fst (most_common (analyze_text lower_nonascii text n stopwords))).
Proof.
  pose proof (frequencies_counter_of lower_nonascii text n stopwords) as Hc.
  split.
  - intros t c Hin. apply most_common_In_items in Hin.
    assert (Hget : Counter.get
              (frequencies (analyze_text lower_nonascii text n stopwords)) t = c)
      by (apply In_items_get; [apply (co_nodup _ _ Hc) | exact Hin]).
    split; [symmetry; exact Hget |].
    rewrite <- Hget, (co_get _ _ Hc).
    assert (Hk : In t (filtered_tokens lower_nonascii text stopwords)).
    { apply (co_keys _ _ Hc). unfold Counter.keys, Counter.items in *.
      apply in_map_iff. exists (t, c); auto. }
    apply (count_occ_In str_eq_dec) in Hk. lia.
  - rewrite most_common_eq.
    apply (subseq_NoDup _ (map fst (Heapq.sorted_desc snd
             (Counter.items
                (frequencies (analyze_text lower_nonascii text n stopwords)))))).
    + apply subseq_map, subseq_firstn.
    + apply (Permutation_NoDup (l := Counter.keys
               (frequencies (analyze_text lower_nonascii text n stopwords)))).
      * unfold Counter.keys. apply Permutation_map. symmetry.
        apply sorted_desc_Permutation.
      * apply (co_nodup _ _ Hc).
Qed.

Lemma analyze_text_most_common_entries_witness :
  2%Z = Counter.get
          (frequencies (analyze_text sample_lower_nonascii
             (py "dua satu satu dua tiga") 2 DEFAULT_STOPWORDS)) (py "satu") /\
  (1 <= 2)%Z.
Proof.
  apply (proj1 (analyze_text_most_common_entries sample_lower_nonascii
                  (py "dua satu satu dua tiga") 2 DEFAULT_STOPWORDS)).
  vm_compute. right; left; reflexivity.
Defined.

(** C7. [analyze_text("kata kata kata lain", top_n=1)] with the default
    stopwords ranks exactly one entry, [("kata", 3)]. *)
Theorem analyze_text_kata (lower_nonascii : str -> nat -> str) :
  most_common
    (analyze_text lower_nonascii (py "kata kata kata lain") 1 DEFAULT_STOPWORDS)
  = [(py "kata", 3%Z)].
Proof. vm_compute. reflexivity. Qed.

(** C8. The result depends on the arguments only: two runs on the same
    text and top-N whose stopword sets have the same members, however
    each run's hash table orders them, return the same result, with the
    same ranked list and the same frequency table. *)
Theorem analyze_text_deterministic
    (lower_nonascii : str -> nat -> str) (text : str) (n : Z)
    (stopwords1 stopwords2 : PySet.t) :
  (forall t, In t stopwords1 <-> In t stopwords2) ->
  analyze_text lower_nonascii text n stopwords1
  = analyze_text lower_nonascii text n stopwords2 /\
  most_common (analyze_text lower_nonascii text n stopwords1)
  = most_common (analyze_text lower_nonascii text n stopwords2) /\
  frequencies (analyze_text lower_nonascii text n stopwords1)
  = frequencies (analyze_text lower_nonascii text n stopwords2).
Proof.
  intros Hsame.
  assert (E : remove_stopwords (tokenize lower_nonascii text) stopwords1 3
              = remove_stopwords (tokenize lower_nonascii text) stopwords2 3).
  { unfold remove_stopwords. apply filter_ext. intros t.
    f_equal. f_equal.
    destruct (PySet.contains stopwords1 t) eqn:E1,
             (PySet.contains stopwords2 t) eqn:E2; auto.
    - apply contains_In, Hsame, contains_In in E1. congruence.
    - apply contains_In, Hsame, contains_In in E2. congruence. }
  unfold analyze_text. rewrite E. auto.
Qed.

Lemma analyze_text_deterministic_witness :
  analyze_text sample_lower_nonascii (py "satu dan dua atau dua") 2
    [py "dan"; py "atau"]
  = analyze_text sample_lower_nonascii (py "satu dan dua atau dua") 2
      [py "atau"; py "dan"].
Proof.
  apply (analyze_text_deterministic sample_lower_nonascii
           (py "satu dan dua atau dua") 2
           [py "dan"; py "atau"] [py "atau"; py "dan"]).
  intros t; simpl; tauto.
Defined.

(** ** Decimal text *)

Lemma uint_digits d :
  Forall (fun a => (48 <= N_of_ascii a <= 57)%N)
    (list_ascii_of_string (NilEmpty.string_of_uint d)).
Proof.
  induction d; simpl; constructor; auto; vm_compute; split; discriminate.
Qed.

Lemma str_of_int_chars z c :
  In c (str_of_int z) -> (48 <= c <= 57)%N \/ c = 45%N.
Proof.
  unfold str_of_int, Str.of_string. rewrite in_map_iff.
  intros [a [<- Ha]].
  assert (Hu : forall d, In a (list_ascii_of_string (NilZero.string_of_uint d)) ->
                 (48 <= N_of_ascii a <= 57)%N).
  { intros d Hd. destruct d;
      try (exact (proj1 (Forall_forall _ _) (uint_digits _) a Hd)).
    simpl in Hd. destruct Hd as [<- | []]. vm_compute; split; discriminate. }
  destruct (Z.to_int z) as [d | d]; simpl in Ha.
  - left; eauto.
  - destruct Ha as [<- | Ha]; [right; reflexivity | left; eauto].
Qed.

Lemma str_of_int_plain z : plain (str_of_int z).
Proof.
  split; [| split; [| split]].
  - intros H; apply str_of_int_chars in H; char_arith.
  - intros H; apply str_of_int_chars in H; char_arith.
  - intros H; apply str_of_int_chars in H; char_arith.
  - apply forallb_forall. intros c H. apply str_of_int_chars in H.
    char_arith.
Qed.

Lemma utf8_encodable_app a b :
  Str.utf8_encodable (a ++ b)
  = Str.utf8_encodable a && Str.utf8_encodable b.
Proof. apply forallb_app. Qed.

Lemma to_int_not_nil z : Z.to_int z <> Decimal.Pos Decimal.Nil
                         /\ Z.to_int z <> Decimal.Neg Decimal.Nil.
Proof.
  destruct z as [|p|p]; simpl; split; try discriminate;
    intros E; injection E; apply DecimalPos.Unsigned.to_uint_nonnil.
Qed.

Lemma int_of_str_of_int z : int_of_str (str_of_int z) = Some z.
Proof.
  unfold int_of_str, str_of_int, Str.of_string.
  replace (forallb (fun c => (c <? 256)%N)
             (map N_of_ascii
                (list_ascii_of_string (NilZero.string_of_int (Z.to_int z)))))
    with true.
  - rewrite map_map.
    rewrite (map_ext _ (fun a => a)) by (intros a; apply ascii_N_embedding).
    rewrite map_id, string_of_list_ascii_of_string.
    destruct (to_int_not_nil z) as [H1 H2].
    rewrite NilZero.isi by assumption. simpl.
    rewrite DecimalZ.of_to. reflexivity.
  - symmetry. apply forallb_forall. intros c Hc.
    apply in_map_iff in Hc. destruct Hc as [a [<- _]].
    apply N.ltb_lt. apply N_ascii_bounded.
Qed.

(** ** Splitting into fields and lines *)

Lemma split_on_no_sep sep d :
  ~ In sep d -> forall cur, Str.split_on sep cur d = [rev cur ++ d].
Proof.
  induction d as [|c d IH]; intros Hd cur; simpl.
  - rewrite app_nil_r; reflexivity.
  - destruct (N.eqb_spec c sep) as [-> | Hne].
    + exfalso; apply Hd; left; reflexivity.
    + rewrite IH by (intros H; apply Hd; right; exact H).
      simpl. rewrite <- app_assoc. reflexivity.
Qed.

Lemma split_on_sep sep w d :
  ~ In sep w -> forall cur,
    Str.split_on sep cur (w ++ sep :: d)
    = (rev cur ++ w) :: Str.split_on sep [] d.
Proof.
  induction w as [|c w IH]; intros Hw cur; simpl.
  - rewrite N.eqb_refl, app_nil_r. reflexivity.
  - destruct (N.eqb_spec c sep) as [-> | Hne].
    + exfalso; apply Hw; left; reflexivity.
    + rewrite IH by (intros H; apply Hw; right; exact H).
      simpl. rewrite <- app_assoc. reflexivity.
Qed.

Lemma lines_on_line row rest :
  ~ In LF row -> forall cur,
    lines_on cur (row ++ LF :: rest) = (rev cur ++ row) :: lines_on [] rest.
Proof.
  induction row as [|c row IH]; intros Hrow cur; simpl.
  - rewrite app_nil_r. reflexivity.
  - destruct (N.eqb_spec c LF) as [-> | Hne].
    + exfalso; apply Hrow; left; reflexivity.
    + rewrite IH by (intros H; apply Hrow; right; exact H).
      simpl. rewrite <- app_assoc. reflexivity.
Qed.

Lemma lines_terminated rows :
  Forall (fun row => ~ In LF row) rows ->
  lines (concat (map (fun row => row ++ [LF]) rows)) = rows.
Proof.
  unfold lines. induction 1 as [|row rows Hrow Hrows IH]; simpl; auto.
  rewrite <- app_assoc. simpl. rewrite lines_on_line by assumption.
  simpl. rewrite IH. reflexivity.
Qed.

Lemma parse_row_format word count :
  plain word -> parse_row (format_row (word, count)) = Some (word, count).
Proof.
  intros [Htab _]. unfold parse_row, format_row, Str.split. simpl.
  rewrite split_on_sep by assumption.
  rewrite split_on_no_sep by apply str_of_int_plain.
  simpl. rewrite int_of_str_of_int. reflexivity.
Qed.

Lemma parse_rows_format ranked :
  Forall (fun row => plain (fst row)) ranked ->
  parse_rows (map format_row ranked) = Some ranked.
Proof.
  induction 1 as [|[word count] ranked Hrow Hrows IH]; simpl; auto.
  rewrite IH. change (word ++ TAB :: str_of_int count)
    with (format_row (word, count)).
  rewrite parse_row_format by assumption. reflexivity.
Qed.

Lemma format_row_no_LF row : plain (fst row) -> ~ In LF (format_row row).
Proof.
  destruct row as [word count]. intros (_ & Hlf & _). unfold format_row.
  rewrite !in_app_iff. intros [H | [H | H]].
  - auto.
  - destruct H as [H | []]. discriminate.
  - apply (proj1 (proj2 (str_of_int_plain count))); assumption.
Qed.

Lemma format_row_encodable row :
  Str.utf8_encodable (fst row) = true ->
  Str.utf8_encodable (format_row row ++ [LF]) = true.
Proof.
  destruct row as [word count]. simpl. intros H. unfold format_row.
  rewrite !utf8_encodable_app, H.
  change (TAB :: str_of_int count) with ([TAB] ++ str_of_int count).
  rewrite utf8_encodable_app.
  rewrite (proj2 (proj2 (proj2 (str_of_int_plain count)))). reflexivity.
Qed.

Lemma format_row_no_CR row : plain (fst row) -> ~ In CR (format_row row).
Proof.
  destruct row as [word count]. intros (_ & _ & Hcr & _). unfold format_row.
  rewrite !in_app_iff. intros [H | [H | H]].
  - auto.
  - destruct H as [H | []]. discriminate.
  - apply (proj1 (proj2 (proj2 (str_of_int_plain count)))); assumption.
Qed.

Lemma header_no_break : ~ In LF header_line /\ ~ In CR header_line.
Proof.
  split; intros H; vm_compute in H;
    repeat (destruct H as [H | H]; [discriminate |]); contradiction.
Qed.

Lemma separator_no_break : ~ In LF separator_line /\ ~ In CR separator_line.
Proof.
  split; intros H; vm_compute in H;
    repeat (destruct H as [H | H]; [discriminate |]); contradiction.
Qed.

Lemma universal_newlines_id s : ~ In CR s -> universal_newlines s = s.
Proof.
  induction s as [|c s IH]; intros H; [reflexivity |].
  cbn [universal_newlines]. destruct (N.eqb_spec c CR) as [-> | Hne].
  - exfalso; apply H; left; reflexivity.
  - rewrite IH; [reflexivity |]. intros Hin; apply H; right; exact Hin.
Qed.

Lemma concat_lines_no_CR rows :
  Forall (fun row => ~ In CR row) rows ->
  ~ In CR (concat (map (fun row => row ++ [LF]) rows)).
Proof.
  induction 1 as [|row rows Hrow Hrows IH]; simpl; [tauto |].
  rewrite !in_app_iff. intros [[H | H] | H]; auto.
  destruct H as [H | []]. discriminate.
Qed.

Lemma ranking_text_rows ranked :
  ranking_text ranked
  = concat (map (fun row => row ++ [LF])
              (header_line :: separator_line :: map format_row ranked)).
Proof.
  unfold ranking_text. cbn [concat map]. rewrite map_map, <- !app_assoc.
  reflexivity.
Qed.

Lemma lines_ranking_text ranked :
  Forall (fun row => plain (fst row)) ranked ->
  file_lines (ranking_text ranked)
  = header_line :: separator_line :: map format_row ranked.
Proof.
  intros H. unfold file_lines, read_text. rewrite ranking_text_rows.
  rewrite universal_newlines_id.
  - apply lines_terminated.
    constructor; [apply header_no_break |].
    constructor; [apply separator_no_break |].
    apply Forall_map. revert H. apply Forall_impl. apply format_row_no_LF.
  - apply concat_lines_no_CR.
    constructor; [apply header_no_break |].
    constructor; [apply separator_no_break |].
    apply Forall_map. revert H. apply Forall_impl. apply format_row_no_CR.
Qed.

(** ** The file system *)

Lemma path_eqb_eq p q : Fs.path_eqb p q = true <-> p = q.
Proof.
  revert q; induction p as [|a p IH]; intros [|b q]; simpl;
    try (split; [discriminate | congruence]); try tauto.
  rewrite andb_true_iff, str_eqb_eq, IH. split.
  - intros [-> ->]; reflexivity.
  - intros E; injection E; auto.
Qed.

Lemma update_same s p e : Fs.update s p e p = Some e.
Proof.
  unfold Fs.update. rewrite (proj2 (path_eqb_eq p p) eq_refl). reflexivity.
Qed.

Lemma update_other s p e q : q <> p -> Fs.update s p e q = s q.
Proof.
  unfold Fs.update. intros H. destruct (Fs.path_eqb q p) eqn:E; auto.
  apply path_eqb_eq in E. contradiction.
Qed.

Lemma mkdir_ok d : forall s,
  (forall pre q c, d = pre ++ q -> q <> [] -> s q <> Some (Fs.File c)) ->
  exists s',
    PathOps.mkdir d s = Some (tt, s') /\
    Fs.lookup s' d = Some Fs.Dir /\
    forall q, (length d < length q)%nat -> s' q = s q.
Proof.
  induction d as [|a up IH]; intros s Hfree.
  - exists s. auto.
  - simpl. unfold Fs.bind, Fs.get_entry. simpl.
    destruct (s (a :: up)) as [[|content]|] eqn:E.
    + exists s. simpl. auto.
    + exfalso.
      apply (Hfree [] (a :: up) content);
        [reflexivity | discriminate | exact E].
    + destruct (IH s) as (s1 & Hmk & _ & Hsame).
      { intros pre q c Eq. apply (Hfree (a :: pre)). rewrite Eq; reflexivity. }
      rewrite Hmk. exists (Fs.update s1 (a :: up) Fs.Dir).
      split; [reflexivity | split].
      * simpl. apply update_same.
      * intros q Hq. rewrite update_other.
        -- apply Hsame. simpl in Hq. lia.
        -- intros ->. simpl in Hq. lia.
Qed.

Lemma write_ok f data s content :
  Str.utf8_encodable data = true ->
  f <> [] -> s f = Some (Fs.File content) ->
  exists s',
    PathOps.write f data s = Some (tt, s') /\
    s' f = Some (Fs.File (content ++ data)) /\
    forall q, q <> f -> s' q = s q.
Proof.
  intros Henc Hf Hs. unfold PathOps.write. rewrite Henc.
  unfold Fs.bind, Fs.get_entry, Fs.lookup.
  destruct f as [|a f]; [congruence |]. rewrite Hs.
  exists (Fs.update s (a :: f) (Fs.File (content ++ data))).
  split; [reflexivity | split]; [apply update_same |].
  intros q Hq. apply update_other; assumption.
Qed.

Lemma for_each_write_ok f (g : str * Z -> str) rows : forall s content,
  Forall (fun row => int_str_allowed (snd row) = true) rows ->
  Forall (fun row => Str.utf8_encodable (g row) = true) rows ->
  f <> [] -> s f = Some (Fs.File content) ->
  exists s',
    PathOps.for_each rows
      (fun row => Fs.ensure (int_str_allowed (snd row)) ;; PathOps.write f (g row))
      s = Some (tt, s') /\
    s' f = Some (Fs.File (content ++ concat (map g rows))) /\
    forall q, q <> f -> s' q = s q.
Proof.
  induction rows as [|row rows IH]; intros s content Hint Henc Hf Hs; simpl.
  - exists s. rewrite app_nil_r. auto.
  - inversion Henc as [|? ? Hrow Hrows]; subst.
    inversion Hint as [|? ? Hrowi Hrowsi]; subst.
    destruct (write_ok f (g row) s content Hrow Hf Hs)
      as (s1 & Hw & Hs1 & Hsame1).
    destruct (IH s1 _ Hrowsi Hrows Hf Hs1) as (s2 & Hfe & Hs2 & Hsame2).
    exists s2. unfold Fs.bind at 1 2. rewrite Hrowi. cbn [Fs.ensure Fs.ret].
    rewrite Hw. split; [exact Hfe | split].
    + rewrite Hs2, <- app_assoc. reflexivity.
    + intros q Hq. rewrite Hsame2, Hsame1; auto.
Qed.

Lemma mkdir_files d : forall s s',
  PathOps.mkdir d s = Some (tt, s') ->
  forall q c, s' q = Some (Fs.File c) <-> s q = Some (Fs.File c).
Proof.
  induction d as [|a up IH]; intros s s' Hmk q c.
  - simpl in Hmk. injection Hmk as <-. tauto.
  - simpl in Hmk. unfold Fs.bind, Fs.get_entry in Hmk. simpl in Hmk.
    destruct (s (a :: up)) as [[|c']|] eqn:E; try discriminate.
    + injection Hmk as <-. tauto.
    + destruct (PathOps.mkdir up s) as [[[] s1]|] eqn:E1; try discriminate.
      unfold Fs.put_entry in Hmk. injection Hmk as <-.
      rewrite <- (IH s s1 E1 q c). unfold Fs.update.
      destruct (Fs.path_eqb q (a :: up)) eqn:Eq; [| tauto].
      apply path_eqb_eq in Eq; subst q. split; [discriminate |].
      intros H1. apply (IH s s1 E1) in H1. congruence.
Qed.

Lemma open_w_ok p s :
  p <> [] -> s p <> Some Fs.Dir -> Fs.lookup s (Fs.parent p) = Some Fs.Dir ->
  PathOps.open_w p s = Some (p, Fs.update s p (Fs.File [])).
Proof.
  intros Hp Hdir Hup. destruct p as [|a up]; [congruence |].
  unfold PathOps.open_w, Fs.bind, Fs.get_entry, Fs.put_entry, Fs.ret.
  change (Fs.lookup s (a :: up)) with (s (a :: up)).
  destruct (s (a :: up)) as [[|c]|]; [congruence | |]; rewrite Hup; reflexivity.
Qed.

(** [save_ranking] on a writable path, with tokens UTF-8 can encode: it
    does not raise, the file then holds the ranking text, and every other
    file is as it was. *)
Lemma save_ranking_ok ranked p s :
  Forall (fun row => int_str_allowed (snd row) = true) ranked ->
  Forall (fun row => Str.utf8_encodable (fst row) = true) ranked ->
  writable s p ->
  exists s',
    save_ranking ranked p s = Some (tt, s') /\
    s' p = Some (Fs.File (ranking_text ranked)) /\
    forall q c, q <> p -> s' q = Some (Fs.File c) <-> s q = Some (Fs.File c).
Proof.
  intros Hint Henc (Hp & Hdir & Hfree).
  destruct (mkdir_ok (Fs.parent p) s Hfree) as (s1 & Hmk & Hup & Hsame1).
  assert (Hs1p : s1 p = s p).
  { apply Hsame1. destruct p; [congruence | simpl; lia]. }
  assert (Hopen : PathOps.open_w p s1 = Some (p, Fs.update s1 p (Fs.File []))).
  { apply open_w_ok; auto. rewrite Hs1p; assumption. }
  set (s2 := Fs.update s1 p (Fs.File [])) in *.
  assert (Hs2 : s2 p = Some (Fs.File [])) by apply update_same.
  destruct (write_ok p (header_line ++ [LF]) s2 [] eq_refl Hp Hs2)
    as (s3 & Hw3 & Hs3 & Hsame3).
  destruct (write_ok p (separator_line ++ [LF]) s3 _ eq_refl Hp Hs3)
    as (s4 & Hw4 & Hs4 & Hsame4).
  destruct (for_each_write_ok p (fun row => format_row row ++ [LF]) ranked
              s4 _ Hint (Forall_impl _ format_row_encodable Henc) Hp Hs4)
    as (s5 & Hw5 & Hs5 & Hsame5).
  exists s5. split; [| split].
  - unfold save_ranking. unfold Fs.bind at 1. rewrite Hmk.
    unfold Fs.bind at 1. rewrite Hopen.
    unfold Fs.bind at 1. rewrite Hw3.
    unfold Fs.bind at 1. rewrite Hw4. exact Hw5.
  - rewrite Hs5. unfold ranking_text. rewrite <- !app_assoc. reflexivity.
  - intros q c Hq.
    rewrite Hsame5, Hsame4, Hsame3 by assumption.
    unfold s2. rewrite update_other by assumption.
    apply (mkdir_files _ _ _ Hmk).
Qed.

Lemma writable_empty_fs p : p <> [] -> writable empty_fs p.
Proof. intros Hp. repeat split; auto; discriminate. Qed.

Lemma word_char_plain t : Forall (fun c => word_char c = true) t -> plain t.
Proof.
  intros H. rewrite Forall_forall in H. split; [| split; [| split]].
  - intros Hin; apply H in Hin; discriminate.
  - intros Hin; apply H in Hin; discriminate.
  - intros Hin; apply H in Hin; discriminate.
  - apply forallb_forall. intros c Hc. apply H in Hc. char_arith.
Qed.

Lemma plain_encodable ranked :
  Forall (fun row : str * Z => plain (fst row)) ranked ->
  Forall (fun row => Str.utf8_encodable (fst row) = true) ranked.
Proof. apply Forall_impl. intros row (_ & _ & _ & H). exact H. Qed.

(** Whatever the text, the tokens [analyze_text] ranks are plain: they
    are made of characters of the class [[a-zA-Z0-9']]. *)
Lemma analyze_text_ranking_plain lower_nonascii text n stopwords :
  Forall (fun row => plain (fst row))
    (most_common (analyze_text lower_nonascii text n stopwords)).
Proof.
  apply Forall_forall. intros [t c] Hin. simpl.
  apply most_common_In_items in Hin.
  pose proof (frequencies_counter_of lower_nonascii text n stopwords) as Hc.
  assert (Hk : In t (filtered_tokens lower_nonascii text stopwords)).
  { apply (co_keys _ _ Hc). unfold Counter.keys, Counter.items in *.
    apply in_map_iff. exists (t, c); auto. }
  unfold filtered_tokens, remove_stopwords in Hk.
  apply filter_In in Hk. destruct Hk as [Hk _].
  destruct (maximal_runs_In _ _ _ (findall_maximal_runs word_char _) t Hk)
    as (_ & Hcls & _).
  apply word_char_plain; assumption.
Qed.

Lemma ranking_text_parse ranked :
  Forall (fun row => plain (fst row)) ranked ->
  file_lines (ranking_text ranked)
    = header_line :: separator_line :: map format_row ranked /\
  parse_ranking (ranking_text ranked) = Some ranked.
Proof.
  intros H. pose proof (lines_ranking_text ranked H) as Hl.
  split; [exact Hl |].
  unfold parse_ranking, data_rows. rewrite Hl. simpl.
  apply parse_rows_format; assumption.
Qed.

(** A token of the specification can be carried by the ranking file. *)
Lemma token_plain t : token t -> plain t.
Proof.
  intros H. apply word_char_plain. revert H. apply Forall_impl.
  intros c Hc. unfold token_char, APOSTROPHE in Hc.
  destruct Hc as [Hc | [Hc | ->]]; [| | reflexivity];
    unfold word_char, Str.is_ascii_upper, Str.is_ascii_lower,
      Str.is_ascii_digit;
    rewrite !orb_true_iff, !andb_true_iff, !N.leb_le; auto.
Qed.

(** A count between zero and one the interpreter converts is converted. *)
Lemma int_str_allowed_le c m :
  (0 <= c <= m)%Z -> int_str_allowed m = true -> int_str_allowed c = true.
Proof.
  unfold int_str_allowed. generalize (10 ^ int_max_str_digits)%Z.
  intros L Hc Hm. apply Z.ltb_lt in Hm. apply Z.ltb_lt. lia.
Qed.

(** No count that [analyze_text] ranks is above the number of words. *)
Lemma analyze_text_ranking_counts lower_nonascii text n stopwords :
  Forall (fun row => (0 <= snd row
                      <= word_count (analyze_text lower_nonascii text n
                                       stopwords))%Z)
    (most_common (analyze_text lower_nonascii text n stopwords)).
Proof.
  apply Forall_forall. intros [t c] Hin. simpl snd.
  apply most_common_In_items in Hin.
  pose proof (frequencies_counter_of lower_nonascii text n stopwords) as Hc.
  rewrite <- (In_items_get _ t c (co_nodup _ _ Hc) Hin), (co_get _ _ Hc).
  unfold analyze_text, len. cbn [word_count].
  pose proof (count_occ_bound str_eq_dec t
                (filtered_tokens lower_nonascii text stopwords)) as Hb.
  unfold filtered_tokens in *. lia.
Qed.

Lemma analyze_text_ranking_allowed lower_nonascii text n stopwords :
  int_str_allowed (word_count (analyze_text lower_nonascii text n stopwords))
    = true ->
  Forall (fun row => int_str_allowed (snd row) = true)
    (most_common (analyze_text lower_nonascii text n stopwords)).
Proof.
  intros Hm.
  eapply Forall_impl;
    [| apply (analyze_text_ranking_counts lower_nonascii text n stopwords)].
  intros row Hrow. apply (int_str_allowed_le _ _ Hrow Hm).
Qed.

(** C2. For a ranked list of (token, count) pairs, the tokens being
    tokens as the specification has them and the counts having at most
    4300 digits, which is as far as the interpreter converts an [int] to
    text, [save_ranking] on a writable path returns and leaves a file
    whose lines are the header, the separator and then one line per pair,
    in rank order, made of the token, a tab and the count in decimal;
    parsing the data rows by splitting each on the tab gives the ranked
    list back: same tokens, same counts, same order. *)
Theorem save_ranking_round_trip
    (ranked : list (str * Z)) (p : Fs.path) (s : Fs.fs) :
  Forall (fun row => token (fst row)) ranked ->
  Forall (fun row => int_str_allowed (snd row) = true) ranked ->
  writable s p ->
  exists s' content,
    save_ranking ranked p s = Some (tt, s') /\
    s' p = Some (Fs.File content) /\
    file_lines content
      = header_line :: separator_line :: map format_row ranked /\
    parse_ranking content = Some ranked.
Proof.
  intros Htok Hint Hw.
  assert (Hplain : Forall (fun row : str * Z => plain (fst row)) ranked).
  { revert Htok. apply Forall_impl. intros row. apply token_plain. }
  destruct (save_ranking_ok ranked p s Hint (plain_encodable ranked Hplain) Hw)
    as (s' & Hsave & Hfile & _).
  destruct (ranking_text_parse ranked Hplain) as [Hl Hp].
  exists s', (ranking_text ranked). auto.
Qed.

Lemma save_ranking_round_trip_witness :
  exists s' content,
    save_ranking [(py "kata", 3%Z); (py "don't", 1%Z)]
      [py "word_frequency_top.txt"; py "outputs"] empty_fs = Some (tt, s') /\
    s' [py "word_frequency_top.txt"; py "outputs"] = Some (Fs.File content) /\
    file_lines content
      = header_line :: separator_line
          :: map format_row [(py "kata", 3%Z); (py "don't", 1%Z)] /\
    parse_ranking content = Some [(py "kata", 3%Z); (py "don't", 1%Z)].
Proof.
  apply (save_ranking_round_trip [(py "kata", 3%Z); (py "don't", 1%Z)]
           [py "word_frequency_top.txt"; py "outputs"] empty_fs).
  - repeat apply Forall_cons; try apply Forall_nil;
      unfold token_char, APOSTROPHE; simpl; lia.
  - repeat apply Forall_cons; try apply Forall_nil; vm_compute; reflexivity.
  - apply writable_empty_fs. discriminate.
Defined.

(** The round trip of the pipeline: what [analyze_text] ranks, once
    saved on a writable path, parses back to the same ranked list. *)
Corollary pipeline_round_trip lower_nonascii text n stopwords p s :
  int_str_allowed (word_count (analyze_text lower_nonascii text n stopwords))
    = true ->
  writable s p ->
  exists s' content,
    save_ranking (most_common (analyze_text lower_nonascii text n stopwords))
      p s = Some (tt, s') /\
    s' p = Some (Fs.File content) /\
    parse_ranking content
    = Some (most_common (analyze_text lower_nonascii text n stopwords)).
Proof.
  intros Hm Hw.
  pose proof (analyze_text_ranking_plain lower_nonascii text n stopwords)
    as Hplain.
  destruct (save_ranking_ok _ p s
              (analyze_text_ranking_allowed _ _ _ _ Hm)
              (plain_encodable _ Hplain) Hw)
    as (s' & Hsave & Hfile & _).
  destruct (ranking_text_parse _ Hplain) as [_ Hp].
  exists s', (ranking_text
                (most_common (analyze_text lower_nonascii text n stopwords))).
  auto.
Qed.

(** C6. The empty text gives zero characters, zero words and an empty
    ranked list, and [save_ranking] on that list, on a writable path,
    still writes the header line and the separator line and no data row. *)
Theorem analyze_text_empty
    (lower_nonascii : str -> nat -> str) (n : Z) (stopwords : PySet.t)
    (p : Fs.path) (s : Fs.fs) :
  writable s p ->
  char_count (analyze_text lower_nonascii [] n stopwords) = 0%Z /\
  word_count (analyze_text lower_nonascii [] n stopwords) = 0%Z /\
  most_common (analyze_text lower_nonascii [] n stopwords) = [] /\
  exists s' content,
    save_ranking (most_common (analyze_text lower_nonascii [] n stopwords)) p s
      = Some (tt, s') /\
    s' p = Some (Fs.File content) /\
    content = header_line ++ [LF] ++ separator_line ++ [LF] /\
    file_lines content = [header_line; separator_line] /\
    data_rows content = [].
Proof.
  intros Hw.
  assert (Hmc : most_common (analyze_text lower_nonascii [] n stopwords) = []).
  { rewrite most_common_eq. simpl. apply firstn_nil. }
  repeat split; auto.
  rewrite Hmc.
  destruct (save_ranking_ok [] p s (Forall_nil _) (Forall_nil _) Hw)
    as (s' & Hsave & Hfile & _).
  destruct (ranking_text_parse [] (Forall_nil _)) as [Hl _].
  exists s', (ranking_text []). repeat split; auto.
Qed.

Lemma analyze_text_empty_witness :
  char_count (analyze_text sample_lower_nonascii [] 15 DEFAULT_STOPWORDS)
    = 0%Z /\
  word_count (analyze_text sample_lower_nonascii [] 15 DEFAULT_STOPWORDS)
    = 0%Z /\
  most_common (analyze_text sample_lower_nonascii [] 15 DEFAULT_STOPWORDS)
    = [] /\
  exists s' content,
    save_ranking
      (most_common (analyze_text sample_lower_nonascii [] 15 DEFAULT_STOPWORDS))
      [py "word_frequency_top.txt"; py "outputs"] empty_fs = Some (tt, s') /\
    s' [py "word_frequency_top.txt"; py "outputs"] = Some (Fs.File content) /\
    content = header_line ++ [LF] ++ separator_line ++ [LF] /\
    file_lines content = [header_line; separator_line] /\
    data_rows content = [].
Proof.
  apply (analyze_text_empty sample_lower_nonascii 15 DEFAULT_STOPWORDS
           [py "word_frequency_top.txt"; py "outputs"] empty_fs).
  apply writable_empty_fs. discriminate.
Defined.

(** * Further properties *)

(** ** Tokens of ASCII text *)

Lemma lower_from_ascii lower_nonascii text rest : forall i,
  Forall (fun c => is_ascii c = true) rest ->
  Str.lower_from lower_nonascii text i rest = map ascii_lower rest.
Proof.
  induction rest as [|c rest IH]; intros i H; [reflexivity |].
  inversion H as [|? ? Hc Hrest]; subst. simpl. rewrite Hc, IH by assumption.
  reflexivity.
Qed.

Lemma lower_ascii lower_nonascii text :
  Forall (fun c => is_ascii c = true) text ->
  Str.lower lower_nonascii text = map ascii_lower text.
Proof. apply lower_from_ascii. Qed.

Lemma scan_separator cls x c y : forall cur,
  cls c = false ->
  Re.scan cls cur (x ++ c :: y) = Re.scan cls cur x ++ Re.scan cls [] y.
Proof.
  induction x as [|d x IH]; intros cur Hc; simpl.
  - rewrite Hc. reflexivity.
  - destruct (cls d).
    + apply IH; assumption.
    + rewrite IH by assumption. apply app_assoc.
Qed.

Lemma ascii_lower_separator c :
  word_char c = false -> ascii_lower c = c.
Proof.
  intros H. unfold Str.ascii_lower.
  destruct (is_ascii_upper c) eqn:E; [| reflexivity].
  unfold word_char in H. rewrite E in H.
  rewrite orb_true_r in H. discriminate.
Qed.

(** X1. Letter case does not count: two ASCII texts that differ only in
    the case of their letters have the same tokens and the same analysis. *)
Theorem analyze_text_case_insensitive
    (lower_nonascii : str -> nat -> str) (a b : str) (n : Z)
    (stopwords : PySet.t) :
  Forall (fun c => is_ascii c = true) a ->
  Forall (fun c => is_ascii c = true) b ->
  map ascii_lower a = map ascii_lower b ->
  tokenize lower_nonascii a = tokenize lower_nonascii b /\
  analyze_text lower_nonascii a n stopwords
  = analyze_text lower_nonascii b n stopwords.
Proof.
  intros Ha Hb E.
  assert (Et : tokenize lower_nonascii a = tokenize lower_nonascii b).
  { unfold tokenize. rewrite !lower_ascii, E by assumption. reflexivity. }
  split; [exact Et |].
  unfold analyze_text. rewrite Et. unfold len.
  rewrite <- (length_map ascii_lower a), E, length_map. reflexivity.
Qed.

Lemma analyze_text_case_insensitive_witness :
  tokenize sample_lower_nonascii (py "Kata KATA lain")
  = tokenize sample_lower_nonascii (py "kata kaTa LAIN") /\
  analyze_text sample_lower_nonascii (py "Kata KATA lain") 3 DEFAULT_STOPWORDS
  = analyze_text sample_lower_nonascii (py "kata kaTa LAIN") 3
      DEFAULT_STOPWORDS.
Proof.
  apply (analyze_text_case_insensitive sample_lower_nonascii
           (py "Kata KATA lain") (py "kata kaTa LAIN") 3 DEFAULT_STOPWORDS);
    [repeat constructor | repeat constructor | reflexivity].
Defined.

(** X2. No token spans a separator: the tokens of two ASCII texts joined
    by a character outside [[a-zA-Z0-9']] are the tokens of the first
    followed by the tokens of the second. *)
Theorem tokenize_join
    (lower_nonascii : str -> nat -> str) (a b : str) (c : char) :
  Forall (fun c => is_ascii c = true) a ->
  Forall (fun c => is_ascii c = true) b ->
  is_ascii c = true ->
  word_char c = false ->
  tokenize lower_nonascii (a ++ c :: b)
  = tokenize lower_nonascii a ++ tokenize lower_nonascii b.
Proof.
  intros Ha Hb Hc Hw. unfold tokenize.
  rewrite !lower_ascii; auto.
  - rewrite map_app. simpl. rewrite (ascii_lower_separator c Hw).
    unfold Re.findall_class_plus. apply scan_separator; assumption.
  - apply Forall_app; split; [assumption | constructor; assumption].
Qed.

Lemma tokenize_join_witness :
  tokenize sample_lower_nonascii (py "satu dua" ++ 44%N :: py "Tiga empat")
  = tokenize sample_lower_nonascii (py "satu dua")
      ++ tokenize sample_lower_nonascii (py "Tiga empat").
Proof.
  apply (tokenize_join sample_lower_nonascii (py "satu dua") (py "Tiga empat")
           44%N);
    [repeat constructor | repeat constructor | reflexivity | reflexivity].
Defined.

(** ** More on the filter *)

Lemma filter_filter_implied {A} (f g : A -> bool) (l : list A) :
  (forall x, g x = true -> f x = true) ->
  filter g (filter f l) = filter g l.
Proof.
  intros H. induction l as [|x l IH]; simpl; [reflexivity |].
  destruct (f x) eqn:Ef; simpl.
  - rewrite IH. reflexivity.
  - destruct (g x) eqn:Eg; [| assumption].
    apply H in Eg. congruence.
Qed.

(** X3. Filtering twice changes nothing more: [remove_stopwords] applied
    to its own result, with the same stopwords and threshold, returns it. *)
Theorem remove_stopwords_idempotent
    (tokens : list str) (stopwords : PySet.t) (min_len : Z) :
  remove_stopwords (remove_stopwords tokens stopwords min_len)
    stopwords min_len
  = remove_stopwords tokens stopwords min_len.
Proof. unfold remove_stopwords. apply filter_filter_implied. auto. Qed.

(** X4. A stricter filter keeps less: with more stopwords and a threshold
    at least as high, the result is a subsequence of the result of the
    laxer filter. *)
Theorem remove_stopwords_monotone
    (tokens : list str) (stopwords1 stopwords2 : PySet.t)
    (min_len1 min_len2 : Z) :
  incl stopwords1 stopwords2 ->
  (min_len1 <= min_len2)%Z ->
  subseq (remove_stopwords tokens stopwords2 min_len2)
    (remove_stopwords tokens stopwords1 min_len1).
Proof.
  intros Hincl Hle. unfold remove_stopwords.
  rewrite <- (filter_filter_implied
                (fun t => negb (PySet.contains stopwords1 t)
                          && (len t >=? min_len1)%Z)
                (fun t => negb (PySet.contains stopwords2 t)
                          && (len t >=? min_len2)%Z)).
  - apply subseq_filter.
  - intros t H. apply keep_not_excluded in H. apply keep_not_excluded.
    intros [Hin | Hlt]; apply H; [left; apply Hincl; exact Hin | right; lia].
Qed.

Lemma remove_stopwords_monotone_witness :
  subseq
    (remove_stopwords [py "satu"; py "dua"; py "tiga"] [py "dua"; py "xx"] 4)
    (remove_stopwords [py "satu"; py "dua"; py "tiga"] [py "xx"] 3).
Proof.
  apply (remove_stopwords_monotone [py "satu"; py "dua"; py "tiga"]
           [py "xx"] [py "dua"; py "xx"] 3 4).
  - intros t Ht. right. exact Ht.
  - lia.
Defined.

(** ** More on the analysis *)

Lemma keys_In_items c k :
  NoDup (Counter.keys c) -> In k (Counter.keys c) ->
  In (k, Counter.get c k) (Counter.items c).
Proof.
  intros Hnd Hk. unfold Counter.keys in Hk. apply in_map_iff in Hk.
  destruct Hk as [[k' v] [E Hin]]. simpl in E; subst k'.
  rewrite (In_items_get c k v Hnd Hin). exact Hin.
Qed.

Lemma most_common_In_keys lower_nonascii text n stopwords t c :
  In (t, c) (most_common (analyze_text lower_nonascii text n stopwords)) ->
  In t (filtered_tokens lower_nonascii text stopwords).
Proof.
  intros Hin. apply most_common_In_items in Hin.
  apply (co_keys _ _ (frequencies_counter_of lower_nonascii text n stopwords)).
  unfold Counter.keys, Counter.items in *.
  apply in_map_iff. exists (t, c); auto.
Qed.

Lemma filtered_tokens_kept lower_nonascii text stopwords t :
  In t (filtered_tokens lower_nonascii text stopwords) ->
  ~ In t stopwords /\ (3 <= len t)%Z /\
  Forall (fun c => word_char c = true) t.
Proof.
  unfold filtered_tokens, remove_stopwords. intros H.
  apply filter_In in H. destruct H as [Htok Hkeep].
  apply keep_not_excluded in Hkeep. unfold excluded in Hkeep.
  destruct (maximal_runs_In _ _ _ (findall_maximal_runs word_char _) t Htok)
    as (_ & Hcls & _).
  repeat split; [tauto | | exact Hcls].
  destruct (Z_lt_le_dec (len t) 3); [exfalso; tauto | assumption].
Qed.

(** X5. A stopword or a token of fewer than three characters is never
    counted and never ranked: every key of the frequency table, and
    every token of the ranked list, is outside the stopword set, has at
    least three characters and is made of [[a-zA-Z0-9']] only. *)
Theorem analyze_text_counts_kept_tokens_only
    (lower_nonascii : str -> nat -> str) (text : str) (n : Z)
    (stopwords : PySet.t) (t : str) :
  In t (Counter.keys
          (frequencies (analyze_text lower_nonascii text n stopwords))) \/
  In t (map fst
          (most_common (analyze_text lower_nonascii text n stopwords))) ->
  ~ In t stopwords /\ (3 <= len t)%Z /\
  Forall (fun c => word_char c = true) t.
Proof.
  intros H. apply (filtered_tokens_kept lower_nonascii text stopwords).
  destruct H as [H | H].
  - apply (co_keys _ _
             (frequencies_counter_of lower_nonascii text n stopwords)).
    exact H.
  - apply in_map_iff in H. destruct H as [[t' c] [E H]]. simpl in E; subst t'.
    eapply most_common_In_keys; eauto.
Qed.

Lemma analyze_text_counts_kept_tokens_only_witness :
  ~ In (py "lain") DEFAULT_STOPWORDS /\ (3 <= len (py "lain"))%Z /\
  Forall (fun c => word_char c = true) (py "lain").
Proof.
  apply (analyze_text_counts_kept_tokens_only sample_lower_nonascii
           (py "kata kata dan lain") 1 DEFAULT_STOPWORDS (py "lain")).
  left. vm_compute. right; left; reflexivity.
Defined.

(** X6. Looking a token up in the frequency table gives the number of
    times it occurs in the filtered token sequence; a token that does not
    occur there is not a key and its lookup gives zero. *)
Theorem analyze_text_frequency_lookup
    (lower_nonascii : str -> nat -> str) (text : str) (n : Z)
    (stopwords : PySet.t) (t : str) :
  Counter.get (frequencies (analyze_text lower_nonascii text n stopwords)) t
  = Z.of_nat (count_occ str_eq_dec
                (filtered_tokens lower_nonascii text stopwords) t) /\
  (In t (Counter.keys
           (frequencies (analyze_text lower_nonascii text n stopwords)))
   <-> (0 < Counter.get
              (frequencies (analyze_text lower_nonascii text n stopwords)) t)%Z).
Proof.
  pose proof (frequencies_counter_of lower_nonascii text n stopwords) as Hc.
  split; [apply (co_get _ _ Hc) |].
  rewrite (co_get _ _ Hc), (co_keys _ _ Hc).
  rewrite (count_occ_In str_eq_dec). lia.
Qed.

Lemma StronglySorted_app_rel {A} (R : A -> A -> Prop) (a b : list A) :
  StronglySorted R (a ++ b) ->
  forall x y, In x a -> In y b -> R x y.
Proof.
  induction a as [|z a IH]; intros Hs x y Hx Hy; [destruct Hx |].
  simpl in Hs. inversion Hs as [|? ? Hs' Hall]; subst.
  destruct Hx as [<- | Hx].
  - rewrite Forall_forall in Hall. apply Hall. apply in_or_app; right; exact Hy.
  - apply IH; assumption.
Qed.

(** X7. The ranked list holds the top counts: a token of the frequency
    table that is left out of the ranked list has a count no larger than
    the count of any ranked entry. *)
Theorem analyze_text_ranking_is_top
    (lower_nonascii : str -> nat -> str) (text : str) (n : Z)
    (stopwords : PySet.t) (t k : str) (c : Z) :
  In (t, c) (most_common (analyze_text lower_nonascii text n stopwords)) ->
  In k (Counter.keys
          (frequencies (analyze_text lower_nonascii text n stopwords))) ->
  ~ In k (map fst
            (most_common (analyze_text lower_nonascii text n stopwords))) ->
  (Counter.get
     (frequencies (analyze_text lower_nonascii text n stopwords)) k <= c)%Z.
Proof.
  pose proof (frequencies_counter_of lower_nonascii text n stopwords) as Hc.
  rewrite most_common_eq.
  set (f := frequencies (analyze_text lower_nonascii text n stopwords)) in *.
  set (S := Heapq.sorted_desc snd (Counter.items f)).
  intros Hin Hk Hout.
  assert (Hitem : In (k, Counter.get f k) S).
  { apply (sorted_desc_In _ snd). apply keys_In_items; [| exact Hk].
    apply (co_nodup _ _ Hc). }
  rewrite <- (firstn_skipn (Z.to_nat n) S) in Hitem.
  apply in_app_or in Hitem. destruct Hitem as [Hitem | Hitem].
  - exfalso. apply Hout. apply in_map_iff.
    exists (k, Counter.get f k); auto.
  - pose proof (sorted_desc_sorted _ snd (Counter.items f)) as Hs.
    fold S in Hs. rewrite <- (firstn_skipn (Z.to_nat n) S) in Hs.
    apply (StronglySorted_app_rel _ _ _ Hs (t, c) (k, Counter.get f k));
      assumption.
Qed.

Lemma analyze_text_ranking_is_top_witness :
  (Counter.get
     (frequencies (analyze_text sample_lower_nonascii
        (py "dua satu satu dua tiga") 2 DEFAULT_STOPWORDS)) (py "tiga")
   <= 2)%Z.
Proof.
  apply (analyze_text_ranking_is_top sample_lower_nonascii
           (py "dua satu satu dua tiga") 2 DEFAULT_STOPWORDS
           (py "satu") (py "tiga") 2).
  - vm_compute. right; left; reflexivity.
  - vm_compute. right; right; left; reflexivity.
  - vm_compute. intros [H | [H | []]]; discriminate.
Defined.

(** X8. A shorter ranking is the beginning of a longer one: for [n <= m]
    the ranked list for top-[n] is the first [n] entries of the ranked
    list for top-[m], and the frequency table is the same. *)
Theorem analyze_text_ranking_prefix
    (lower_nonascii : str -> nat -> str) (text : str) (n m : Z)
    (stopwords : PySet.t) :
  (n <= m)%Z ->
  most_common (analyze_text lower_nonascii text n stopwords)
  = firstn (Z.to_nat n)
      (most_common (analyze_text lower_nonascii text m stopwords)) /\
  frequencies (analyze_text lower_nonascii text n stopwords)
  = frequencies (analyze_text lower_nonascii text m stopwords).
Proof.
  intros Hle. split; [| reflexivity].
  rewrite !most_common_eq. rewrite firstn_firstn.
  replace (Nat.min (Z.to_nat n) (Z.to_nat m)) with (Z.to_nat n) by lia.
  reflexivity.
Qed.

Lemma analyze_text_ranking_prefix_witness :
  most_common (analyze_text sample_lower_nonascii
     (py "dua satu satu dua tiga") 1 DEFAULT_STOPWORDS)
  = firstn (Z.to_nat 1)
      (most_common (analyze_text sample_lower_nonascii
         (py "dua satu satu dua tiga") 3 DEFAULT_STOPWORDS)).
Proof.
  apply (analyze_text_ranking_prefix sample_lower_nonascii
           (py "dua satu satu dua tiga") 1 3 DEFAULT_STOPWORDS). lia.
Defined.

Lemma sum_Z_app a b : sum_Z (a ++ b) = (sum_Z a + sum_Z b)%Z.
Proof. induction a as [|x a IH]; simpl; lia. Qed.

Lemma sum_Z_Permutation a b : Permutation a b -> sum_Z a = sum_Z b.
Proof. induction 1; simpl; lia. Qed.

Lemma sum_Z_nonneg l : Forall (fun v => (0 <= v)%Z) l -> (0 <= sum_Z l)%Z.
Proof. induction 1; simpl; lia. Qed.

(** X9. The counts of the ranked list add up to at most the word count,
    and to exactly the word count when the top-N is no smaller than the
    number of distinct filtered tokens. *)
Theorem analyze_text_ranking_sum
    (lower_nonascii : str -> nat -> str) (text : str) (n : Z)
    (stopwords : PySet.t) :
  (sum_Z (map snd
            (most_common (analyze_text lower_nonascii text n stopwords)))
   <= word_count (analyze_text lower_nonascii text n stopwords))%Z /\
  ((Z.of_nat (distinct_count (filtered_tokens lower_nonascii text stopwords))
      <= n)%Z ->
   sum_Z (map snd
            (most_common (analyze_text lower_nonascii text n stopwords)))
   = word_count (analyze_text lower_nonascii text n stopwords)).
Proof.
  pose proof (frequencies_counter_of lower_nonascii text n stopwords) as Hc.
  pose proof (keys_length_distinct lower_nonascii text n stopwords) as Hlen.
  rewrite most_common_eq.
  set (f := frequencies (analyze_text lower_nonascii text n stopwords)) in *.
  set (S := Heapq.sorted_desc snd (Counter.items f)).
  assert (Hsum : sum_Z (map snd S)
                 = word_count (analyze_text lower_nonascii text n stopwords)).
  { transitivity (sum_Z (Counter.values f)).
    - apply sum_Z_Permutation. apply Permutation_map.
      apply sorted_desc_Permutation.
    - apply (co_sum _ _ Hc). }
  split.
  - rewrite <- Hsum.
    rewrite <- (firstn_skipn (Z.to_nat n) S) at 2.
    rewrite map_app, sum_Z_app.
    assert (0 <= sum_Z (map snd (skipn (Z.to_nat n) S)))%Z; [| lia].
    apply sum_Z_nonneg. apply Forall_forall. intros v Hv.
    apply in_map_iff in Hv. destruct Hv as [[k v'] [E Hin]].
    simpl in E; subst v'.
    assert (Hitem : In (k, v) (Counter.items f)).
    { apply (sorted_desc_In _ snd).
      rewrite <- (firstn_skipn (Z.to_nat n) (Heapq.sorted_desc snd _)).
      apply in_or_app; right; exact Hin. }
    rewrite <- (In_items_get f k v (co_nodup _ _ Hc) Hitem), (co_get _ _ Hc).
    lia.
  - intros Hle. rewrite firstn_all2; [exact Hsum |].
    unfold S. rewrite sorted_desc_length. unfold Counter.items.
    unfold Counter.keys in Hlen. rewrite length_map in Hlen. lia.
Qed.

Lemma analyze_text_ranking_sum_witness :
  sum_Z (map snd
           (most_common (analyze_text sample_lower_nonascii
              (py "dua satu satu dua tiga") 3 DEFAULT_STOPWORDS)))
  = word_count (analyze_text sample_lower_nonascii
      (py "dua satu satu dua tiga") 3 DEFAULT_STOPWORDS).
Proof.
  apply (proj2 (analyze_text_ranking_sum sample_lower_nonascii
                  (py "dua satu satu dua tiga") 3 DEFAULT_STOPWORDS)).
  vm_compute. discriminate.
Defined.

Lemma maximal_runs_length cls s runs :
  maximal_runs cls s runs -> (length (concat runs) <= length s)%nat.
Proof.
  induction 1 as [sep Hs | sep run rest runs Hs Hn Hr Hrest Hruns IH]; simpl.
  - lia.
  - rewrite !length_app. lia.
Qed.

Lemma filter_concat_length (f : str -> bool) (l : list str) :
  (length (concat (filter f l)) <= length (concat l))%nat.
Proof.
  induction l as [|t l IH]; simpl; [lia |].
  destruct (f t); simpl; rewrite ?length_app; lia.
Qed.

Lemma concat_length_at_least (m : nat) (l : list str) :
  Forall (fun t => (m <= length t)%nat) l ->
  (m * length l <= length (concat l))%nat.
Proof.
  induction 1 as [|t l Ht Hl IH]; simpl; [lia |].
  rewrite length_app. lia.
Qed.

(** X10. Words take room: for ASCII text, three times the word count is
    at most the character count, since each counted token is a run of at
    least three characters of the text and no two runs overlap. *)
Theorem analyze_text_words_fit
    (lower_nonascii : str -> nat -> str) (text : str) (n : Z)
    (stopwords : PySet.t) :
  Forall (fun c => is_ascii c = true) text ->
  (3 * word_count (analyze_text lower_nonascii text n stopwords)
   <= char_count (analyze_text lower_nonascii text n stopwords))%Z.
Proof.
  intros Hascii. unfold analyze_text. cbn [word_count char_count].
  unfold len at 1 2.
  set (tokens := tokenize lower_nonascii text).
  assert (Hruns : (length (concat tokens) <= length text)%nat).
  { unfold tokens, tokenize.
    rewrite (lower_ascii lower_nonascii text Hascii).
    pose proof (maximal_runs_length _ _ _
       (findall_maximal_runs word_char (map ascii_lower text))) as H.
    rewrite length_map in H. exact H. }
  pose proof (filter_concat_length
                (fun t => negb (PySet.contains stopwords t)
                          && (len t >=? 3)%Z) tokens) as Hfil.
  assert (Hmin : (3 * length (remove_stopwords tokens stopwords 3)
                  <= length (concat (remove_stopwords tokens stopwords 3)))%nat).
  { apply concat_length_at_least. apply Forall_forall. intros t Ht.
    unfold remove_stopwords in Ht. apply filter_In in Ht.
    destruct Ht as [_ Hk]. apply andb_true_iff in Hk. destruct Hk as [_ Hk].
    rewrite Z.geb_le in Hk. unfold len in Hk. lia. }
  unfold remove_stopwords in *. lia.
Qed.

Lemma analyze_text_words_fit_witness :
  (3 * word_count (analyze_text sample_lower_nonascii
                     (py "kata kata kata lain") 1 DEFAULT_STOPWORDS)
   <= char_count (analyze_text sample_lower_nonascii
                    (py "kata kata kata lain") 1 DEFAULT_STOPWORDS))%Z.
Proof.
  apply (analyze_text_words_fit sample_lower_nonascii
           (py "kata kata kata lain") 1 DEFAULT_STOPWORDS).
  repeat constructor.
Defined.

(** ** More on saving *)

Lemma mkdir_dir d : forall s s1,
  PathOps.mkdir d s = Some (tt, s1) -> Fs.lookup s1 d = Some Fs.Dir.
Proof.
  destruct d as [|a up]; intros s s1 Hmk; [reflexivity |].
  simpl in Hmk. unfold Fs.bind, Fs.get_entry in Hmk. simpl in Hmk.
  destruct (s (a :: up)) as [[|c]|] eqn:E; try discriminate.
  - injection Hmk as <-. exact E.
  - destruct (PathOps.mkdir up s) as [[[] s0]|]; try discriminate.
    unfold Fs.put_entry in Hmk. injection Hmk as <-. simpl.
    apply update_same.
Qed.

Lemma mkdir_only_adds d : forall s s1,
  PathOps.mkdir d s = Some (tt, s1) ->
  forall q, s1 q = s q \/ (s q = None /\ s1 q = Some Fs.Dir).
Proof.
  induction d as [|a up IH]; intros s s1 Hmk q.
  - simpl in Hmk. injection Hmk as <-. left; reflexivity.
  - simpl in Hmk. unfold Fs.bind, Fs.get_entry in Hmk. simpl in Hmk.
    destruct (s (a :: up)) as [[|c]|] eqn:E; try discriminate.
    + injection Hmk as <-. left; reflexivity.
    + destruct (PathOps.mkdir up s) as [[[] s0]|] eqn:E0; try discriminate.
      unfold Fs.put_entry in Hmk. injection Hmk as <-.
      unfold Fs.update. destruct (Fs.path_eqb q (a :: up)) eqn:Eq.
      * apply path_eqb_eq in Eq; subst q. right; auto.
      * apply (IH s s0 E0).
Qed.

Lemma mkdir_noop d s :
  Fs.lookup s d = Some Fs.Dir -> PathOps.mkdir d s = Some (tt, s).
Proof.
  destruct d as [|a up]; intros H; [reflexivity |].
  simpl in *. unfold Fs.bind, Fs.get_entry. simpl. rewrite H. reflexivity.
Qed.

Lemma mkdir_blocked pre q s c :
  q <> [] -> s q = Some (Fs.File c) ->
  (forall pre1 pre2, pre = pre1 ++ pre2 -> pre2 <> [] -> s (pre2 ++ q) = None) ->
  PathOps.mkdir (pre ++ q) s = None.
Proof.
  intros Hq Hfile. induction pre as [|a pre IH]; intros Hgap.
  - destruct q as [|b q]; [congruence |].
    simpl. unfold Fs.bind, Fs.get_entry. simpl. rewrite Hfile. reflexivity.
  - assert (Hnone : s (a :: pre ++ q) = None)
      by (apply (Hgap [] (a :: pre) eq_refl); discriminate).
    simpl. unfold Fs.bind, Fs.get_entry. simpl.
    rewrite Hnone, IH; [reflexivity |].
    intros pre1 pre2 E Hne. apply (Hgap (a :: pre1)); [| exact Hne].
    rewrite E. reflexivity.
Qed.

Lemma open_w_inv p s f s2 :
  PathOps.open_w p s = Some (f, s2) ->
  p <> [] /\ s p <> Some Fs.Dir /\ f = p /\
  s2 p = Some (Fs.File []) /\ forall q, q <> p -> s2 q = s q.
Proof.
  unfold PathOps.open_w, Fs.bind, Fs.get_entry, Fs.put_entry, Fs.ret.
  destruct p as [|a up]; [discriminate |].
  change (Fs.lookup s (a :: up)) with (s (a :: up)).
  intros H.
  assert (Hgo : s (a :: up) <> Some Fs.Dir /\
                Some (a :: up, Fs.update s (a :: up) (Fs.File []))
                = Some (f, s2)).
  { destruct (s (a :: up)) as [[|c]|]; [discriminate | |];
      destruct (Fs.lookup s (Fs.parent (a :: up))) as [[|c']|];
      try discriminate; split; [discriminate | exact H | discriminate | exact H]. }
  destruct Hgo as [Hdir E]. injection E as <- <-.
  repeat split; [discriminate | exact Hdir | apply update_same |].
  intros q Hq. apply update_other; exact Hq.
Qed.

Lemma write_inv f data s s' :
  PathOps.write f data s = Some (tt, s') ->
  Str.utf8_encodable data = true /\
  exists content,
    Fs.lookup s f = Some (Fs.File content) /\
    s' f = Some (Fs.File (content ++ data)) /\
    forall q, q <> f -> s' q = s q.
Proof.
  unfold PathOps.write. destruct (Str.utf8_encodable data); [| discriminate].
  unfold Fs.bind, Fs.get_entry, Fs.put_entry.
  destruct (Fs.lookup s f) as [[|content]|]; try discriminate.
  intros H. injection H as <-. split; [reflexivity |].
  exists content. repeat split; [apply update_same |].
  intros q Hq. apply update_other; exact Hq.
Qed.

Lemma for_each_write_inv f (g : str * Z -> str) rows : forall s s' content,
  f <> [] -> s f = Some (Fs.File content) ->
  PathOps.for_each rows
    (fun row => Fs.ensure (int_str_allowed (snd row)) ;; PathOps.write f (g row))
    s = Some (tt, s') ->
  Forall (fun row => int_str_allowed (snd row) = true) rows /\
  Forall (fun row => Str.utf8_encodable (g row) = true) rows /\
  s' f = Some (Fs.File (content ++ concat (map g rows))) /\
  forall q, q <> f -> s' q = s q.
Proof.
  induction rows as [|row rows IH]; intros s s' content Hf Hs Hrun.
  - simpl in Hrun. injection Hrun as <-. rewrite app_nil_r. auto.
  - simpl in Hrun. unfold Fs.bind at 1 2 in Hrun.
    destruct (int_str_allowed (snd row)) eqn:Ei; [| discriminate].
    cbn [Fs.ensure Fs.ret] in Hrun.
    destruct (PathOps.write f (g row) s) as [[[] s1]|] eqn:Ew;
      [| discriminate].
    apply write_inv in Ew. destruct Ew as (Henc & c & Hc & Hs1 & Hsame1).
    assert (c = content).
    { destruct f; [congruence |]. simpl in Hc. congruence. }
    subst c.
    destruct (IH s1 s' _ Hf Hs1 Hrun) as (Halli & Hall & Hs' & Hsame).
    repeat split.
    + constructor; assumption.
    + constructor; assumption.
    + rewrite Hs'. simpl. rewrite <- app_assoc. reflexivity.
    + intros q Hq. rewrite Hsame, Hsame1; auto.
Qed.

Lemma utf8_encodable_row row :
  Str.utf8_encodable (format_row row ++ [LF]) = true ->
  Str.utf8_encodable (fst row) = true.
Proof.
  destruct row as [word count]. unfold format_row. simpl fst.
  rewrite !utf8_encodable_app. intros H.
  apply andb_true_iff in H. destruct H as [H _].
  apply andb_true_iff in H. destruct H as [H _]. exact H.
Qed.

(** What a run of [save_ranking] that returns has done. *)
Lemma save_ranking_inv ranked p s s' :
  save_ranking ranked p s = Some (tt, s') ->
  p <> [] /\
  Forall (fun row => int_str_allowed (snd row) = true) ranked /\
  Forall (fun row => Str.utf8_encodable (fst row) = true) ranked /\
  s' p = Some (Fs.File (ranking_text ranked)) /\
  exists s1,
    PathOps.mkdir (Fs.parent p) s = Some (tt, s1) /\
    s1 p <> Some Fs.Dir /\
    forall q, q <> p -> s' q = s1 q.
Proof.
  unfold save_ranking. unfold Fs.bind at 1.
  destruct (PathOps.mkdir (Fs.parent p) s) as [[[] s1]|] eqn:Emk;
    [| discriminate].
  unfold Fs.bind at 1.
  destruct (PathOps.open_w p s1) as [[f s2]|] eqn:Eop; [| discriminate].
  apply open_w_inv in Eop. destruct Eop as (Hp & Hdir & -> & Hs2 & Hsame2).
  unfold Fs.bind at 1.
  destruct (PathOps.write p (header_line ++ [LF]) s2) as [[[] s3]|] eqn:Ew3;
    [| discriminate].
  apply write_inv in Ew3. destruct Ew3 as (_ & c3 & Hc3 & Hs3 & Hsame3).
  assert (c3 = []) by (destruct p; [congruence | simpl in Hc3; congruence]).
  subst c3.
  unfold Fs.bind at 1.
  destruct (PathOps.write p (separator_line ++ [LF]) s3) as [[[] s4]|] eqn:Ew4;
    [| discriminate].
  apply write_inv in Ew4. destruct Ew4 as (_ & c4 & Hc4 & Hs4 & Hsame4).
  assert (c4 = [] ++ header_line ++ [LF])
    by (destruct p; [congruence | simpl in Hc4; congruence]).
  subst c4.
  intros Hrun.
  destruct (for_each_write_inv p (fun row => format_row row ++ [LF]) ranked
              s4 s' _ Hp Hs4 Hrun) as (Hint & Henc & Hs' & Hsame5).
  split; [exact Hp | split; [exact Hint | split; [| split]]].
  - revert Henc. apply Forall_impl. apply utf8_encodable_row.
  - rewrite Hs'. unfold ranking_text. rewrite <- !app_assoc. reflexivity.
  - exists s1. repeat split; [exact Hdir |].
    intros q Hq. rewrite Hsame5, Hsame4, Hsame3, Hsame2 by assumption.
    reflexivity.
Qed.

(** [save_ranking] once the parent directory is there. *)
Lemma save_ranking_run ranked p s s1 :
  p <> [] ->
  PathOps.mkdir (Fs.parent p) s = Some (tt, s1) ->
  s1 p <> Some Fs.Dir ->
  Forall (fun row => int_str_allowed (snd row) = true) ranked ->
  Forall (fun row => Str.utf8_encodable (fst row) = true) ranked ->
  exists s',
    save_ranking ranked p s = Some (tt, s') /\
    s' p = Some (Fs.File (ranking_text ranked)) /\
    forall q, q <> p -> s' q = s1 q.
Proof.
  intros Hp Hmk Hdir Hint Henc.
  pose proof (mkdir_dir _ _ _ Hmk) as Hup.
  pose proof (open_w_ok p s1 Hp Hdir Hup) as Hopen.
  set (s2 := Fs.update s1 p (Fs.File [])) in *.
  assert (Hs2 : s2 p = Some (Fs.File [])) by apply update_same.
  destruct (write_ok p (header_line ++ [LF]) s2 [] eq_refl Hp Hs2)
    as (s3 & Hw3 & Hs3 & Hsame3).
  destruct (write_ok p (separator_line ++ [LF]) s3 _ eq_refl Hp Hs3)
    as (s4 & Hw4 & Hs4 & Hsame4).
  destruct (for_each_write_ok p (fun row => format_row row ++ [LF]) ranked
              s4 _ Hint (Forall_impl _ format_row_encodable Henc) Hp Hs4)
    as (s5 & Hw5 & Hs5 & Hsame5).
  exists s5. split; [| split].
  - unfold save_ranking. unfold Fs.bind at 1. rewrite Hmk.
    unfold Fs.bind at 1. rewrite Hopen.
    unfold Fs.bind at 1. rewrite Hw3.
    unfold Fs.bind at 1. rewrite Hw4. exact Hw5.
  - rewrite Hs5. unfold ranking_text. rewrite <- !app_assoc. reflexivity.
  - intros q Hq. rewrite Hsame5, Hsame4, Hsame3 by assumption.
    unfold s2. apply update_other; assumption.
Qed.



(** X12. The last save wins: after a save that returned, a second save
    to the same path, of any ranking with tokens UTF-8 can encode and
    counts of at most 4300 digits, returns too, leaves the text of the
    second ranking in the file and changes nothing else. *)
Theorem save_ranking_twice
    (ranked1 ranked2 : list (str * Z)) (p : Fs.path) (s s1 : Fs.fs) :
  save_ranking ranked1 p s = Some (tt, s1) ->
  Forall (fun row => Str.utf8_encodable (fst row) = true) ranked2 ->
  Forall (fun row => int_str_allowed (snd row) = true) ranked2 ->
  exists s2,
    save_ranking ranked2 p s1 = Some (tt, s2) /\
    s2 p = Some (Fs.File (ranking_text ranked2)) /\
    forall q, q <> p -> s2 q = s1 q.
Proof.
  intros Hfirst Henc Hint.
  destruct (save_ranking_inv _ _ _ _ Hfirst)
    as (Hp & _ & _ & Hfile & s0 & Hmk & _ & Hsame).
  assert (Hup : Fs.lookup s1 (Fs.parent p) = Some Fs.Dir).
  { pose proof (mkdir_dir _ _ _ Hmk) as Hd.
    destruct (Fs.parent p) as [|a up] eqn:E; [reflexivity |].
    simpl in *. rewrite Hsame; [exact Hd |].
    intros Eq. destruct p as [|b p']; [congruence |].
    simpl in E. subst p'. apply (f_equal (@length str)) in Eq.
    simpl in Eq. lia. }
  apply (save_ranking_run ranked2 p s1 s1 Hp (mkdir_noop _ _ Hup)).
  - rewrite Hfile. discriminate.
  - exact Hint.
  - exact Henc.
Qed.

Lemma save_ranking_twice_witness :
  exists s1 s2,
    save_ranking [(py "kata", 3%Z)] [py "top.txt"; py "outputs"] empty_fs
      = Some (tt, s1) /\
    save_ranking [(py "lain", 1%Z)] [py "top.txt"; py "outputs"] s1
      = Some (tt, s2) /\
    s2 [py "top.txt"; py "outputs"]
      = Some (Fs.File (ranking_text [(py "lain", 1%Z)])).
Proof.
  destruct (save_ranking_ok [(py "kata", 3%Z)] [py "top.txt"; py "outputs"]
              empty_fs) as (s1 & Hs1 & _);
    [repeat constructor | repeat constructor
     | apply writable_empty_fs; discriminate |].
  destruct (save_ranking_twice [(py "kata", 3%Z)] [(py "lain", 1%Z)]
              [py "top.txt"; py "outputs"] empty_fs s1 Hs1)
    as (s2 & Hs2 & Hf2 & _); [repeat constructor | repeat constructor |].
  exists s1, s2. auto.
Defined.

(** X13. A directory cannot be saved over: when the output path is the
    empty path or names an existing directory, [save_ranking] raises. *)
Theorem save_ranking_target_directory
    (ranked : list (str * Z)) (p : Fs.path) (s : Fs.fs) :
  Fs.lookup s p = Some Fs.Dir ->
  save_ranking ranked p s = None.
Proof.
  intros Hdir.
  destruct (save_ranking ranked p s) as [[[] s']|] eqn:E; [| reflexivity].
  exfalso.
  destruct (save_ranking_inv _ _ _ _ E)
    as (Hp & _ & _ & _ & s1 & Hmk & Hs1 & _).
  apply Hs1. destruct p as [|a up]; [congruence |]. simpl in Hdir.
  destruct (mkdir_only_adds _ _ _ Hmk (a :: up)) as [H | [H _]]; congruence.
Qed.

Lemma save_ranking_target_directory_witness :
  save_ranking [(py "kata", 3%Z)] [py "outputs"]
    (Fs.update empty_fs [py "outputs"] Fs.Dir) = None.
Proof.
  apply (save_ranking_target_directory [(py "kata", 3%Z)] [py "outputs"]
           (Fs.update empty_fs [py "outputs"] Fs.Dir)).
  reflexivity.
Defined.

(** X14. A file in the way of a directory: when, going up from the
    parent of the output path, the first entry that exists is a regular
    file, [save_ranking] raises. *)
Theorem save_ranking_parent_blocked
    (ranked : list (str * Z)) (p pre q : Fs.path) (s : Fs.fs) (c : str) :
  Fs.parent p = pre ++ q ->
  q <> [] ->
  s q = Some (Fs.File c) ->
  (forall pre1 pre2, pre = pre1 ++ pre2 -> pre2 <> [] ->
     s (pre2 ++ q) = None) ->
  save_ranking ranked p s = None.
Proof.
  intros E Hq Hfile Hgap. unfold save_ranking. unfold Fs.bind at 1.
  rewrite E, (mkdir_blocked pre q s c Hq Hfile Hgap). reflexivity.
Qed.

Lemma save_ranking_parent_blocked_witness :
  save_ranking [(py "kata", 3%Z)] [py "top.txt"; py "sub"; py "outputs"]
    (Fs.update empty_fs [py "outputs"] (Fs.File (py "x"))) = None.
Proof.
  apply (save_ranking_parent_blocked [(py "kata", 3%Z)]
           [py "top.txt"; py "sub"; py "outputs"] [py "sub"] [py "outputs"]
           (Fs.update empty_fs [py "outputs"] (Fs.File (py "x"))) (py "x")).
  - reflexivity.
  - discriminate.
  - reflexivity.
  - intros pre1 pre2 E Hne.
    destruct pre1 as [|a pre1]; simpl in E.
    + subst pre2. reflexivity.
    + injection E as _ E. destruct pre1; destruct pre2; try discriminate.
      congruence.
Defined.

(** X15. Text UTF-8 cannot encode is not written: when a token of the
    ranked list holds a surrogate code point, [save_ranking] raises,
    whatever the path and the file system. *)
Theorem save_ranking_unencodable
    (ranked : list (str * Z)) (p : Fs.path) (s : Fs.fs) (row : str * Z) :
  In row ranked ->
  Str.utf8_encodable (fst row) = false ->
  save_ranking ranked p s = None.
Proof.
  intros Hin Hbad.
  destruct (save_ranking ranked p s) as [[[] s']|] eqn:E; [| reflexivity].
  exfalso.
  destruct (save_ranking_inv _ _ _ _ E) as (_ & _ & Henc & _).
  rewrite Forall_forall in Henc. specialize (Henc row Hin). congruence.
Qed.

Lemma save_ranking_unencodable_witness :
  save_ranking [(py "kata", 3%Z); ([55296%N], 1%Z)] [py "top.txt"] empty_fs
  = None.
Proof.
  apply (save_ranking_unencodable [(py "kata", 3%Z); ([55296%N], 1%Z)]
           [py "top.txt"] empty_fs ([55296%N], 1%Z)).
  - right; left; reflexivity.
  - reflexivity.
Defined.



(** ** The command-line program *)


Section MainFacts.

Variable lower_nonascii : str -> nat -> str.
Variable Path : str -> Fs.path.
Variable as_posix : Fs.path -> str.
Variable show_wordcloud : Counter.t -> Prog.t unit.


End MainFacts.





(** X18. No text, no run: [main] raises when the input file named is
    missing, is a directory, or holds bytes that are not valid UTF-8, and
    when no input file is named (or the name is empty) and the keyboard
    input is at its end. *)
Theorem main_without_text
    (lower_nonascii : str -> nat -> str) (Path : str -> Fs.path)
    (as_posix : Fs.path -> str) (show_wordcloud : Counter.t -> Prog.t unit)
    (args : Args) (w : Prog.world) :
  (exists name,
     file args = Some name /\ name <> [] /\
     (Fs.lookup (Prog.files w) (Path name) = None \/
      Fs.lookup (Prog.files w) (Path name) = Some Fs.Dir \/
      exists content,
        Fs.lookup (Prog.files w) (Path name) = Some (Fs.File content) /\
        Str.utf8_encodable content = false)) \/
  ((file args = None \/ file args = Some []) /\ Prog.keyboard w = []) ->
  main lower_nonascii Path as_posix show_wordcloud args w = None.
Proof.
  intros [(name & Hfile & Hname & Hmiss) | [Hfile Hkey]];
    unfold main; unfold Prog.bind at 1.
  - rewrite Hfile. destruct name as [|c name]; [congruence |].
    unfold Prog.read_text.
    destruct Hmiss as [E | [E | (content & E & Hbad)]]; rewrite E;
      [reflexivity | reflexivity | rewrite Hbad; reflexivity].
  - destruct Hfile as [E | E]; rewrite E; unfold Prog.input; rewrite Hkey;
      reflexivity.
Qed.

Lemma main_without_text_witness :
  main sample_lower_nonascii sample_Path sample_as_posix sample_show_wordcloud
    {| file := Some (py "in.txt"); top := 15; no_viz := true;
       output := py "top.txt" |}
    {| Prog.files :=
         Fs.update empty_fs [py "in.txt"] (Fs.File (py "kata" ++ [56575%N]));
       Prog.keyboard := [py "kata"];
       Prog.screen := [] |}
  = None.
Proof.
  apply (main_without_text sample_lower_nonascii sample_Path sample_as_posix
           sample_show_wordcloud).
  left. exists (py "in.txt").
  split; [reflexivity | split; [discriminate |]].
  right; right. exists (py "kata" ++ [56575%N]). split; reflexivity.
Defined.

Lemma repeat_snoc {A} (x : A) (k : nat) : repeat x k ++ [x] = repeat x (S k).
Proof. induction k as [|k IH]; simpl; [reflexivity | rewrite IH; reflexivity]. Qed.

(** X19. The rows of the report: a token of at most fifteen characters
    is padded with spaces so that its count starts in the seventeenth
    column, and a longer token is shown in full, one space and the
    count after it. *)
Theorem display_row_alignment (word : str) (count : Z) :
  ((length word <= 15)%nat ->
   firstn 16 (display_row (word, count))
   = word ++ repeat 32%N (16 - length word) /\
   skipn 16 (display_row (word, count)) = str_of_int count) /\
  ((15 <= length word)%nat ->
   display_row (word, count) = word ++ py " " ++ str_of_int count).
Proof.
  unfold display_row, ljust. split.
  - intros Hle.
    assert (E : (word ++ repeat 32%N (15 - length word)) ++ py " "
                = word ++ repeat 32%N (16 - length word)).
    { rewrite <- app_assoc. f_equal.
      change (py " ") with [32%N]. rewrite repeat_snoc. f_equal. lia. }
    assert (Hlen : length (word ++ repeat 32%N (16 - length word)) = 16%nat)
      by (rewrite length_app, repeat_length; lia).
    rewrite app_assoc, E. split.
    + rewrite <- Hlen at 1. apply firstn_app_exact.
    + rewrite <- Hlen at 1. rewrite skipn_app, Nat.sub_diag, skipn_all.
      reflexivity.
  - intros Hge. replace (15 - length word)%nat with O by lia.
    simpl. rewrite app_nil_r. reflexivity.
Qed.

Lemma display_row_alignment_witness :
  firstn 16 (display_row (py "kata", 3%Z)) = py "kata" ++ repeat 32%N 12 /\
  skipn 16 (display_row (py "kata", 3%Z)) = py "3".
Proof.
  apply (proj1 (display_row_alignment (py "kata") 3)). simpl. lia.
Defined.
